(** * Count-Min Sketch of bloom-filters (src/count-min-sketch.ts)

    A shallow embedding of the class [CountMinSketch] and of its JSON
    import, over an explicit JavaScript heap: sketch objects and row arrays
    live at references, so that in-place mutation and sharing of rows are
    visible.

    Modelling choices, all written out below:
    - a JS [number] is an unbounded integer, [Infinity] or [NaN]; rounding of
      doubles beyond 2^53 and fractional weights are outside the model;
    - [undefined] read from an array is represented by [NaN], which is what
      every use in this class ([+=], [Math.min]) makes of it;
    - an exception leaves the heap as it was when it was thrown;
    - [utils.getDistinctIndices] is not part of the file: it is a variable
      of the section, with the contract the specification gives it;
    - [create] computes its two sizes with [Math.E / epsilon], [Math.log]
      and [Math.ceil] on doubles and then calls the constructor; the
      constructor is modelled, the arithmetic on doubles is not. *)

From stdpp Require Import list strings.

Open Scope Z_scope.

(** ** JavaScript numbers *)

Inductive number : Type :=
  | Num (z : Z)
  | Infinity
  | NaN.

#[global] Instance number_eq_dec : EqDecision number.
Proof. solve_decision. Defined.

(** [a + b], for the values that occur here (there is no [-Infinity]). *)
Definition js_add (a b : number) : number :=
  match a, b with
  | NaN, _ | _, NaN => NaN
  | Infinity, _ | _, Infinity => Infinity
  | Num x, Num y => Num (x + y)
  end.

(** [Math.min(a, b)]. *)
Definition Math_min (a b : number) : number :=
  match a, b with
  | NaN, _ | _, NaN => NaN
  | Infinity, y => y
  | x, Infinity => x
  | Num x, Num y => Num (Z.min x y)
  end.

(** [a <= b] on numbers: every comparison with [NaN] is false. *)
Definition number_le (a b : number) : Prop :=
  match a, b with
  | NaN, _ | _, NaN => False
  | _, Infinity => True
  | Infinity, Num _ => False
  | Num x, Num y => x ≤ y
  end.

Definition is_int (v : number) : Prop :=
  match v with Num _ => True | _ => False end.

(** ** Arrays of numbers *)

(** [a[key]], where [key] is [None] when the index expression itself is
    [undefined]; a missing cell reads as [undefined], that is [NaN]. *)
Definition array_get (a : list number) (key : option nat) : number :=
  match key with
  | Some j => default NaN (a !! j)
  | None => NaN
  end.

(** [a[key] = v]: inside the array the cell is replaced; beyond its end
    the array is extended, the cells in between being holes; under the key
    [undefined] a named property is set and no cell changes. *)
Definition array_set (a : list number) (key : option nat) (v : number)
  : list number :=
  match key with
  | Some j =>
      if decide (j < length a)%nat then <[j:=v]> a
      else a ++ replicate (j - length a)%nat NaN ++ [v]
  | None => a
  end.

(** ** The heap *)

Abbreviation ref := nat (only parsing).

(** The fields of a sketch: [_seed] is inherited from [BaseFilter]; the
    outer array of [_matrix] is only ever replaced as a whole, so it is a
    list of references to the row arrays. *)
Record CountMinSketch : Type := mkCountMinSketch {
  _seed : Z;
  _columns : nat;
  _rows : nat;
  _matrix : list ref;
  _N : Z
}.

Definition with_N (s : CountMinSketch) (n : Z) : CountMinSketch :=
  mkCountMinSketch (_seed s) (_columns s) (_rows s) (_matrix s) n.

Definition with_seed (s : CountMinSketch) (seed : Z) : CountMinSketch :=
  mkCountMinSketch seed (_columns s) (_rows s) (_matrix s) (_N s).

Definition with_matrix (s : CountMinSketch) (m : list ref) : CountMinSketch :=
  mkCountMinSketch (_seed s) (_columns s) (_rows s) m (_N s).

Record Heap : Type := mkHeap {
  sketches : list CountMinSketch;
  arrays : list (list number)
}.

Definition empty_heap : Heap := mkHeap [] [].

(** ** Exceptions and the monad of the methods *)

Inductive exn : Type :=
  | Error (message : string)
  | TypeError
  | ParameterError.

Inductive outcome (A : Type) : Type :=
  | Ok (a : A)
  | Throw (e : exn).
Arguments Ok {A} a.
Arguments Throw {A} e.

Definition M (A : Type) : Type := Heap → outcome A * Heap.

Definition ret {A} (a : A) : M A := λ h, (Ok a, h).

Definition throw {A} (e : exn) : M A := λ h, (Throw e, h).

Definition bind {A B} (m : M A) (k : A → M B) : M B :=
  λ h, match m h with
       | (Ok a, h') => k a h'
       | (Throw e, h') => (Throw e, h')
       end.

Declare Scope js_scope.
Delimit Scope js_scope with js.
Notation "'let*' x ':=' m 'in' k" := (bind m (λ x, k))
  (at level 10, x name, m at level 100, k at level 200) : js_scope.
Notation "m '>>' k" := (bind m (λ _, k))
  (at level 100, k at level 200, right associativity) : js_scope.
Open Scope js_scope.

(** [for (let i = start; i < start + n; i++) acc = body(i, acc)]. *)
Fixpoint for_loop {A} (i n : nat) (body : nat → A → M A) (acc : A) : M A :=
  match n with
  | O => ret acc
  | S n' => let* acc' := body i acc in for_loop (S i) n' body acc'
  end.

(** Reading a reference that is not in the heap cannot happen in
    JavaScript; the model answers with a [TypeError]. *)
Definition get_sketch (this : ref) : M CountMinSketch :=
  λ h, match sketches h !! this with
       | Some s => (Ok s, h)
       | None => (Throw TypeError, h)
       end.

Definition set_sketch (this : ref) (s : CountMinSketch) : M unit :=
  λ h, (Ok tt, mkHeap (<[this:=s]> (sketches h)) (arrays h)).

Definition get_array (r : ref) : M (list number) :=
  λ h, match arrays h !! r with
       | Some a => (Ok a, h)
       | None => (Throw TypeError, h)
       end.

Definition set_array (r : ref) (a : list number) : M unit :=
  λ h, (Ok tt, mkHeap (sketches h) (<[r:=a]> (arrays h))).

Definition alloc_array (a : list number) : M ref :=
  λ h, (Ok (length (arrays h)), mkHeap (sketches h) (arrays h ++ [a])).

Definition alloc_sketch (s : CountMinSketch) : M ref :=
  λ h, (Ok (length (sketches h)), mkHeap (sketches h ++ [s]) (arrays h)).

(** [m[i]] followed by a property access: [undefined[...]] is a
    [TypeError]. *)
Definition matrix_row (m : list ref) (i : nat) : M ref :=
  match m !! i with
  | Some r => ret r
  | None => throw TypeError
  end.

(** ** Code of the repository that count-min-sketch.ts imports *)

(** Modelled from the spec: [utils.getDefaultSeed] (utils.ts is missing);
    "the default seed is the constant 0x1234567890". *)
Definition getDefaultSeed : Z := 0x1234567890.

(** Modelled from the spec: [utils.allocateArray] (utils.ts is missing);
    an array of [size] cells, each the result of one call of
    [getDefault]. *)
Fixpoint allocateArray {A} (size : nat) (getDefault : M A) : M (list A) :=
  match size with
  | O => ret []
  | S n =>
      let* x := getDefault in
      let* xs := allocateArray n getDefault in
      ret (x :: xs)
  end.

(** ** The constructor

    [constructor (w = 2048, d = 1, seed = utils.getDefaultSeed())]: an
    argument left out is [None].  [super()] is [BaseFilter]'s constructor
    (missing from the sources), modelled from the spec: every structure
    starts with the default seed.  The parameter [seed] is not used in the
    body. *)
Definition new_CountMinSketch (w d : option nat) (seed : option Z) : M ref :=
  let w := default 2048%nat w in
  let d := default 1%nat d in
  let seed := default getDefaultSeed seed in
  let* matrix :=
    allocateArray d
      (let* row := allocateArray w (ret (Num 0)) in alloc_array row) in
  alloc_sketch (mkCountMinSketch getDefaultSeed w d matrix 0).

(** The accessors [get w], [get d] and [get N]. *)
Definition get_w (this : ref) : M nat :=
  let* s := get_sketch this in ret (_columns s).

Definition get_d (this : ref) : M nat :=
  let* s := get_sketch this in ret (_rows s).

Definition get_N (this : ref) : M Z :=
  let* s := get_sketch this in ret (_N s).

(** Modelled from the spec: the accessor [seed] of [BaseFilter]
    (base-filter.ts is missing); "each structure carries a seed", "the seed
    is mutable and participates in every hash computation". *)
Definition get_seed (this : ref) : M Z :=
  let* s := get_sketch this in ret (_seed s).

(** Modelled from the spec: the setter [seed] of [BaseFilter]
    (base-filter.ts is missing). *)
Definition set_seed (this : ref) (seed : Z) : M unit :=
  let* s := get_sketch this in set_sketch this (with_seed s seed).

(** ** merge and clone *)

Definition merge (this sketch : ref) : M unit :=
  let* s := get_sketch this in
  let* o := get_sketch sketch in
  if decide (_columns s ≠ _columns o) then
    throw (Error "Cannot merge two sketches with different number of columns")
  else if decide (_rows s ≠ _rows o) then
    throw (Error "Cannot merge two sketches with different number of rows")
  else
    for_loop 0 (_rows s) (λ i _,
      for_loop 0 (_columns s) (λ j _,
        let* r := matrix_row (_matrix s) i in
        let* q := matrix_row (_matrix o) i in
        let* a := get_array r in
        let* b := get_array q in
        set_array r
          (array_set a (Some j)
             (js_add (array_get a (Some j)) (array_get b (Some j))))) tt) tt.

Definition clone (this : ref) : M ref :=
  let* s := get_sketch this in
  let* sketch := new_CountMinSketch (Some (_columns s)) (Some (_rows s)) None in
  merge sketch this >>
  let* seed := get_seed this in
  set_seed sketch seed >>
  ret sketch.

(** ** JSON export and import *)

Module JSON.

(** The exported object: a field that is absent is [None]; a field that
    is present holds a value of the type the class declares for it. *)
Record t : Type := mk {
  type : option string;
  _matrix : option (list ref);
  _seed : option Z;
  _N : option Z;
  _rows : option nat;
  _columns : option nat
}.

(** [field in obj]. *)
Definition has (obj : t) (field : string) : bool :=
  if decide (field = "type") then bool_decide (is_Some (type obj))
  else if decide (field = "_matrix") then bool_decide (is_Some (_matrix obj))
  else if decide (field = "_seed") then bool_decide (is_Some (_seed obj))
  else if decide (field = "_N") then bool_decide (is_Some (_N obj))
  else if decide (field = "_rows") then bool_decide (is_Some (_rows obj))
  else if decide (field = "_columns") then bool_decide (is_Some (_columns obj))
  else false.

End JSON.

(** Modelled from the spec: [assertFields] of export-import-specs.ts (the
    file is missing); "decoding verifies the type tag and required fields":
    every listed field is in the object. *)
Definition assertFields (obj : JSON.t) (fields : list string) : bool :=
  forallb (JSON.has obj) fields.

(** Modelled from the spec: [cloneObject] of export-import-specs.ts (the
    file is missing), which the decorator installs as [saveAsJSON]; "a
    self-describing record: a type tag, the seed, structural sizes, and the
    raw backing arrays".  The arrays are copied. *)
Definition cloneObject_CountMinSketch (this : ref) : M JSON.t :=
  let* s := get_sketch this in
  let* m :=
    for_loop 0 (length (_matrix s)) (λ i acc,
      let* r := matrix_row (_matrix s) i in
      let* a := get_array r in
      let* r' := alloc_array a in
      ret (acc ++ [r'])) [] in
  ret (JSON.mk (Some "CountMinSketch") (Some m) (Some (_seed s))
         (Some (_N s)) (Some (_rows s)) (Some (_columns s))).

Definition saveAsJSON := cloneObject_CountMinSketch.

(** Reading a field of the payload where the code needs its value. After
    the guard of [import] every field is present. *)
Definition field {A} (v : option A) : M A :=
  match v with
  | Some a => ret a
  | None => throw TypeError
  end.

(** The [import] function given to [@Exportable]; the decorator (missing
    from the sources) installs it as the static [fromJSON].
    [json._matrix.slice()] copies the outer array only: the new sketch has
    the row arrays of the payload. *)
Definition import (json : JSON.t) : M ref :=
  if bool_decide (JSON.type json ≠ Some "CountMinSketch")
     || negb (assertFields json ["_matrix"; "_seed"; "_N"; "_rows"; "_columns"])
  then
    throw (Error "Cannot create a CountMinSketch from a JSON export which does not represent a count-min sketch")
  else
    let* sketch := new_CountMinSketch (JSON._columns json) (JSON._rows json) None in
    let* m := field (JSON._matrix json) in
    let* s := get_sketch sketch in
    set_sketch sketch (with_matrix s m) >>
    let* n := field (JSON._N json) in
    let* s := get_sketch sketch in
    set_sketch sketch (with_N s n) >>
    let* seed := field (JSON._seed json) in
    set_seed sketch seed >>
    ret sketch.

Definition fromJSON := import.

(** ** update and count *)

(** The contract of [utils.getDistinctIndices(element, size, number, seed)]
    in the specification: [number] distinct integers of [0..size) when
    [number <= size].  (When [number > size] the call fails; nothing below
    depends on how.) *)
Definition distinct_indices_spec
    (gdi : string → nat → nat → Z → option (list nat)) : Prop :=
  ∀ element size number seed,
    (number ≤ size)%nat →
    ∃ indexes,
      gdi element size number seed = Some indexes
      ∧ length indexes = number
      ∧ NoDup indexes
      ∧ Forall (λ j, (j < size)%nat) indexes.

Section Hashing.

(** [utils.getDistinctIndices]; [None] is the failure. *)
Variable getDistinctIndices : string → nat → nat → Z → option (list nat).

Definition getDistinctIndices_call (element : string) (size number : nat)
    (seed : Z) : M (list nat) :=
  match getDistinctIndices element size number seed with
  | Some indexes => ret indexes
  | None => throw ParameterError
  end.

(** [update (element, count = 1)]. *)
Definition update (this : ref) (element : string) (count : option Z)
  : M unit :=
  let count := default 1 count in
  let* s := get_sketch this in
  set_sketch this (with_N s (_N s + count)) >>
  let* s := get_sketch this in
  let* indexes :=
    getDistinctIndices_call element (_columns s) (_rows s) (_seed s) in
  for_loop 0 (_rows s) (λ i _,
    let* r := matrix_row (_matrix s) i in
    let* a := get_array r in
    set_array r
      (array_set a (indexes !! i)
         (js_add (array_get a (indexes !! i)) (Num count)))) tt.

Definition count (this : ref) (element : string) : M number :=
  let* s := get_sketch this in
  let* indexes :=
    getDistinctIndices_call element (_columns s) (_rows s) (_seed s) in
  for_loop 0 (_rows s) (λ i min,
    let* r := matrix_row (_matrix s) i in
    let* a := get_array r in
    let v := array_get a (indexes !! i) in
    ret (Math_min v min)) Infinity.

(** A stream of updates, applied in order. *)
Fixpoint updates (this : ref) (stream : list (string * Z)) : M unit :=
  match stream with
  | [] => ret tt
  | (element, c) :: rest =>
      update this element (Some c) >> updates this rest
  end.

End Hashing.

(** * Vocabulary of the statements *)

(** [M[i][j]] as the methods read it. *)
Definition cell (h : Heap) (s : CountMinSketch) (i j : nat) : number :=
  match _matrix s !! i with
  | Some r =>
      match arrays h !! r with
      | Some a => array_get a (Some j)
      | None => NaN
      end
  | None => NaN
  end.

(** A sketch as the constructor builds it and the methods keep it: [_rows]
    rows, each an array of its own with [_columns] integer cells. *)
Record wf_sketch (h : Heap) (s : CountMinSketch) : Prop := mk_wf {
  wf_length : length (_matrix s) = _rows s;
  wf_NoDup : NoDup (_matrix s);
  wf_rows : ∀ r, r ∈ _matrix s →
    ∃ a, arrays h !! r = Some a ∧ length a = _columns s ∧ Forall is_int a
}.

Definition is_intb (v : number) : bool :=
  match v with Num _ => true | _ => false end.

Definition wf_sketchb (h : Heap) (s : CountMinSketch) : bool :=
  bool_decide (length (_matrix s) = _rows s)
  && bool_decide (NoDup (_matrix s))
  && forallb (λ r,
       match arrays h !! r with
       | Some a => bool_decide (length a = _columns s) && forallb is_intb a
       | None => false
       end) (_matrix s).

(** The counters of the specification are non-negative. *)
Definition nonneg_cells (h : Heap) (s : CountMinSketch) : Prop :=
  ∀ i j z, cell h s i j = Num z → 0 ≤ z.

Definition nonneg_cellsb (h : Heap) (s : CountMinSketch) : bool :=
  forallb (λ r,
    match arrays h !! r with
    | Some a =>
        forallb (λ v, match v with Num z => bool_decide (0 ≤ z) | _ => true end) a
    | None => true
    end) (_matrix s).

(** No row array of [s] is a row array of [o]. *)
Definition separate (s o : CountMinSketch) : Prop :=
  Forall (λ r, r ∉ _matrix o) (_matrix s).

(** Every row reference of [s] is in the heap, as in any JavaScript heap. *)
Definition live (h : Heap) (s : CountMinSketch) : Prop :=
  ∀ r, r ∈ _matrix s → is_Some (arrays h !! r).

(** The object that [new CountMinSketch(w, d)] adds to the heap [h]. *)
Definition fresh_sketch (h : Heap) (w d : nat) : CountMinSketch :=
  mkCountMinSketch getDefaultSeed w d (seq (length (arrays h)) d) 0.

(** [v] is the minimum of the cells [M[i][indexes[i]]] of the first [k]
    rows ([Infinity] when there is none). *)
Definition estimate_upto (h : Heap) (s : CountMinSketch) (indexes : list nat)
    (k : nat) (v : number) : Prop :=
  match v with
  | Num z =>
      (∃ i ji, (i < k)%nat ∧ indexes !! i = Some ji ∧ cell h s i ji = Num z)
      ∧ (∀ i ji zi, (i < k)%nat → indexes !! i = Some ji →
           cell h s i ji = Num zi → z ≤ zi)
  | Infinity => k = 0%nat
  | NaN => False
  end.

(** The sum of the weights of the updates of [x] in a stream. *)
Fixpoint true_count (x : string) (stream : list (string * Z)) : Z :=
  match stream with
  | [] => 0
  | (element, c) :: rest =>
      (if decide (element = x) then c else 0) + true_count x rest
  end.

Fixpoint total_weight (stream : list (string * Z)) : Z :=
  match stream with
  | [] => 0
  | (_, c) :: rest => c + total_weight rest
  end.

(** The contents of the rows of a matrix, and the loop of [count] as a
    function of these contents. *)
Definition rows_at (h : Heap) (m : list ref) : list (list number) :=
  (λ r, default [] (arrays h !! r)) <$> m.

Definition row_of (h : Heap) (m : list ref) (i : nat) : option (list number) :=
  m !! i ≫= λ r, arrays h !! r.

Fixpoint estimate (row : nat → option (list number)) (indexes : list nat)
    (i n : nat) (acc : number) : outcome number :=
  match n with
  | O => Ok acc
  | S n' =>
      match row i with
      | Some a =>
          estimate row indexes (S i) n'
            (Math_min (array_get a (indexes !! i)) acc)
      | None => Throw TypeError
      end
  end.

(** The bodies of the loops of [update] and [merge], named. *)
Definition rowwise (m : list ref) (f : nat → list number → list number)
  : nat → unit → M unit :=
  λ i _,
    let* r := matrix_row m i in
    let* a := get_array r in
    set_array r (f i a).

Definition merge_cell (mt mo : list ref) (i j : nat) : M unit :=
  let* r := matrix_row mt i in
  let* q := matrix_row mo i in
  let* a := get_array r in
  let* b := get_array q in
  set_array r
    (array_set a (Some j)
       (js_add (array_get a (Some j)) (array_get b (Some j)))).

(** The errors, under the names the specification gives them. *)
Definition FormatError : exn :=
  Error "Cannot create a CountMinSketch from a JSON export which does not represent a count-min sketch".

Definition IncompatibleShape (e : exn) : Prop :=
  e = Error "Cannot merge two sketches with different number of columns"
  ∨ e = Error "Cannot merge two sketches with different number of rows".

Definition well_formed_payload (json : JSON.t) : Prop :=
  JSON.type json = Some "CountMinSketch"
  ∧ is_Some (JSON._matrix json) ∧ is_Some (JSON._seed json)
  ∧ is_Some (JSON._N json) ∧ is_Some (JSON._rows json)
  ∧ is_Some (JSON._columns json).

#[global] Instance well_formed_payload_dec json :
  Decision (well_formed_payload json).
Proof. unfold well_formed_payload. apply _. Defined.

(** * A hash to run the model with, and concrete heaps *)

(** A generator that fulfils the contract of [getDistinctIndices]: the
    indices of consecutive rows are consecutive modulo [size], from a start
    that depends on the element and on the seed. *)
Definition sample_indices (element : string) (size number : nat) (seed : Z)
  : option (list nat) :=
  if decide (number ≤ size)%nat then
    Some ((λ i : nat,
             Z.to_nat ((Z.of_nat (String.length element) + seed + Z.of_nat i)
                       `mod` Z.of_nat size))
            <$> seq 0 number)
  else None.

(** The heap after [new CountMinSketch(4, 2)], and the sketch in it. *)
Definition heap_4x2 : Heap :=
  Eval vm_compute in
    (new_CountMinSketch (Some 4%nat) (Some 2%nat) None empty_heap).2.

Definition sketch_4x2 : CountMinSketch :=
  Eval vm_compute in fresh_sketch empty_heap 4 2.

Definition alice_bob : list (string * Z) :=
  [("alice", 1); ("bob", 1); ("alice", 1)].

(** The heap after [a = new CountMinSketch(1, 1); a.update('a', 3)]: with
    one column every element is counted in cell 0. *)
Definition sketch_1x1_N3 : CountMinSketch :=
  mkCountMinSketch getDefaultSeed 1 1 [0%nat] 3.

Definition heap_1x1_N3 : Heap :=
  mkHeap [sketch_1x1_N3] [[Num 3]].

(** Two sketches of one row and one column, the second with the seed set to
    [0xABCD]: [a.update('a')], [b.seed = 0xABCD], [b.update('b', 2)]. *)
Definition sketch_a : CountMinSketch :=
  mkCountMinSketch getDefaultSeed 1 1 [0%nat] 1.

Definition sketch_b : CountMinSketch :=
  mkCountMinSketch 0xABCD 1 1 [1%nat] 2.

Definition heap_two_seeds : Heap :=
  mkHeap [sketch_a; sketch_b] [[Num 1]; [Num 2]].

(** Two sketches of 2 columns and 1 row with the default seed, and a third
    one of 3 columns. *)
Definition sketch_c : CountMinSketch :=
  mkCountMinSketch getDefaultSeed 2 1 [0%nat] 1.

Definition sketch_d : CountMinSketch :=
  mkCountMinSketch getDefaultSeed 2 1 [1%nat] 6.

Definition sketch_e : CountMinSketch :=
  mkCountMinSketch getDefaultSeed 3 1 [2%nat] 0.

Definition heap_three : Heap :=
  mkHeap [sketch_c; sketch_d; sketch_e]
    [[Num 1; Num 0]; [Num 2; Num 4]; [Num 0; Num 0; Num 0]].

(** * Lemmas on the monad and on the loops *)

Lemma bind_ok {A B} (m : M A) (k : A → M B) h a h' :
  m h = (Ok a, h') → bind m k h = k a h'.
Proof. unfold bind. by intros ->. Qed.

Lemma bind_throw {A B} (m : M A) (k : A → M B) h e h' :
  m h = (Throw e, h') → bind m k h = (Throw e, h').
Proof. unfold bind. by intros ->. Qed.

Lemma get_sketch_ok this s h :
  sketches h !! this = Some s → get_sketch this h = (Ok s, h).
Proof. unfold get_sketch. by intros ->. Qed.

Lemma get_array_ok r a h :
  arrays h !! r = Some a → get_array r h = (Ok a, h).
Proof. unfold get_array. by intros ->. Qed.

Lemma matrix_row_ok m i r h :
  m !! i = Some r → matrix_row m i h = (Ok r, h).
Proof. unfold matrix_row. by intros ->. Qed.

Lemma get_sketch_last sk s ar :
  get_sketch (length sk) (mkHeap (sk ++ [s]) ar) = (Ok s, mkHeap (sk ++ [s]) ar).
Proof. apply get_sketch_ok. simpl. by rewrite list_lookup_middle. Qed.

Lemma set_sketch_last sk s s' ar :
  set_sketch (length sk) s' (mkHeap (sk ++ [s]) ar)
  = (Ok tt, mkHeap (sk ++ [s']) ar).
Proof.
  unfold set_sketch. simpl. rewrite insert_app_r_alt by lia.
  by rewrite Nat.sub_diag.
Qed.

(** The rule of the loop: an invariant that every iteration re-establishes
    holds when the loop ends, and the loop does end normally. *)
Lemma for_loop_inv {A} (I : nat → A → Heap → Prop) (body : nat → A → M A) n :
  ∀ i acc h,
    I i acc h →
    (∀ k a h0, (i ≤ k < i + n)%nat → I k a h0 →
       ∃ a' h1, body k a h0 = (Ok a', h1) ∧ I (S k) a' h1) →
    ∃ a' h', for_loop i n body acc h = (Ok a', h') ∧ I (i + n)%nat a' h'.
Proof.
  induction n as [|n IH]; intros i acc h Hi Hstep; simpl.
  - exists acc, h. by rewrite Nat.add_0_r.
  - destruct (Hstep i acc h) as (a1 & h1 & Hb & Hi1); [lia | done |].
    destruct (IH (S i) a1 h1 Hi1) as (a' & h' & Hl & Hi').
    { intros k a h0 Hk. apply Hstep. lia. }
    exists a', h'. rewrite (bind_ok _ _ _ _ _ Hb).
    split; [done |]. by replace (i + S n)%nat with (S i + n)%nat by lia.
Qed.

(** A loop that rewrites row [i] of a matrix at iteration [i]. *)
Lemma rowwise_loop m f n h :
  NoDup m → (n ≤ length m)%nat →
  (∀ r, r ∈ m → is_Some (arrays h !! r)) →
  ∃ h', for_loop 0 n (rowwise m f) tt h = (Ok tt, h')
    ∧ sketches h' = sketches h
    ∧ length (arrays h') = length (arrays h)
    ∧ (∀ r, r ∉ take n m → arrays h' !! r = arrays h !! r)
    ∧ (∀ i r a, (i < n)%nat → m !! i = Some r → arrays h !! r = Some a →
         arrays h' !! r = Some (f i a)).
Proof.
  intros Hnd Hn Hex.
  destruct (for_loop_inv (λ k _ h',
      sketches h' = sketches h
      ∧ length (arrays h') = length (arrays h)
      ∧ (∀ r, r ∉ take k m → arrays h' !! r = arrays h !! r)
      ∧ (∀ i r a, (i < k)%nat → m !! i = Some r → arrays h !! r = Some a →
         arrays h' !! r = Some (f i a)))
    (rowwise m f) n 0%nat tt h) as (u & h' & Hrun & Hinv).
  - repeat split; auto. intros; lia.
  - intros k [] h0 Hk (Hs & Hlen & Hout & Hin).
    destruct (lookup_lt_is_Some_2 m k) as [r Hr]; [lia |].
    assert (Hrk : r ∉ take k m).
    { rewrite elem_of_take. intros (i & Hi & Hlt).
      pose proof (NoDup_lookup _ _ _ _ Hnd Hi Hr). lia. }
    destruct (Hex r) as [a Ha]; [by eapply list_elem_of_lookup_2 |].
    exists tt, (mkHeap (sketches h0) (<[r:=f k a]> (arrays h0))).
    split.
    { unfold rowwise. rewrite (bind_ok _ _ _ _ _ (matrix_row_ok _ _ _ _ Hr)).
      rewrite (bind_ok _ _ _ a h0); [done |].
      apply get_array_ok. by rewrite Hout. }
    simpl. repeat split; auto.
    + by rewrite length_insert.
    + intros r' Hr'. rewrite (take_S_r _ _ _ Hr), not_elem_of_app in Hr'.
      destruct Hr' as [Hr1 Hr2]. rewrite list_elem_of_singleton in Hr2.
      rewrite list_lookup_insert_ne by done. by apply Hout.
    + intros i r' a' Hi Hr' Ha'.
      destruct (decide (i = k)) as [-> | Hne].
      * assert (r' = r) by congruence. subst r'.
        assert (a' = a) by congruence. subst a'.
        apply list_lookup_insert_eq. rewrite Hlen. by eapply lookup_lt_Some.
      * rewrite list_lookup_insert_ne.
        -- apply Hin; auto. lia.
        -- intros ->. apply Hne. symmetry. by eapply NoDup_lookup.
  - destruct u. exists h'. by simpl in Hinv.
Qed.

(** * Well-formed sketches and their cells *)

Lemma wf_row h s i :
  wf_sketch h s → (i < _rows s)%nat →
  ∃ r a, _matrix s !! i = Some r ∧ arrays h !! r = Some a
         ∧ length a = _columns s ∧ Forall is_int a.
Proof.
  intros [Hl Hnd Hr] Hi.
  destruct (lookup_lt_is_Some_2 (_matrix s) i) as [r Hri]; [lia |].
  destruct (Hr r) as (a & Ha & Hla & Hint); [by eapply list_elem_of_lookup_2 |].
  by exists r, a.
Qed.

Lemma wf_cell h s i j :
  wf_sketch h s → (i < _rows s)%nat → (j < _columns s)%nat →
  ∃ z, cell h s i j = Num z.
Proof.
  intros Hwf Hi Hj.
  destruct (wf_row h s i Hwf Hi) as (r & a & Hr & Ha & Hla & Hint).
  unfold cell. rewrite Hr, Ha. simpl.
  destruct (lookup_lt_is_Some_2 a j) as [v Hv]; [lia |].
  rewrite Hv. simpl. rewrite Forall_lookup in Hint. specialize (Hint _ _ Hv).
  destruct v; try done. by eexists.
Qed.

Lemma wf_frame h h' s :
  (∀ r, r ∈ _matrix s → arrays h' !! r = arrays h !! r) →
  wf_sketch h s → wf_sketch h' s.
Proof.
  intros Heq [Hl Hnd Hr]. split; [done | done |].
  intros r Hel. rewrite (Heq r Hel). by apply Hr.
Qed.

Lemma wf_with_N h s n : wf_sketch h s → wf_sketch h (with_N s n).
Proof. intros [Hl Hnd Hr]. by split. Qed.

Lemma wf_live h s : wf_sketch h s → live h s.
Proof.
  intros Hwf r Hel. destruct (wf_rows _ _ Hwf r Hel) as (a & Ha & _). by exists a.
Qed.

Lemma wf_sketchb_true h s : wf_sketchb h s = true → wf_sketch h s.
Proof.
  unfold wf_sketchb. rewrite !andb_true_iff, !bool_decide_eq_true.
  intros [[Hl Hnd] Hrows]. split; [done | done |].
  intros r Hel. rewrite forallb_forall in Hrows.
  apply list_elem_of_In in Hel. specialize (Hrows r Hel).
  destruct (arrays h !! r) as [a|]; [| done].
  apply andb_true_iff in Hrows as [Hla Hint].
  apply bool_decide_eq_true in Hla. exists a. repeat split; [done |].
  apply Forall_forall. intros v Hv. rewrite forallb_forall in Hint.
  apply list_elem_of_In in Hv. specialize (Hint v Hv). by destruct v.
Qed.

Lemma cell_frame h h' s i j :
  (∀ r, r ∈ _matrix s → arrays h' !! r = arrays h !! r) →
  cell h' s i j = cell h s i j.
Proof.
  intros Heq. unfold cell. destruct (_matrix s !! i) as [r|] eqn:Hr; [| done].
  rewrite (Heq r); [done |]. by eapply list_elem_of_lookup_2.
Qed.

Lemma cell_Num_inv h s i j z :
  cell h s i j = Num z →
  ∃ r a, _matrix s !! i = Some r ∧ arrays h !! r = Some a
         ∧ a !! j = Some (Num z).
Proof.
  unfold cell. destruct (_matrix s !! i) as [r|] eqn:Hr; [| done].
  destruct (arrays h !! r) as [a|] eqn:Ha; [| done]. simpl.
  destruct (a !! j) as [v|] eqn:Hv; [| done]. simpl. intros ->. by exists r, a.
Qed.

Lemma nonneg_cellsb_true h s : nonneg_cellsb h s = true → nonneg_cells h s.
Proof.
  unfold nonneg_cellsb. intros Hall i j z Hc.
  apply cell_Num_inv in Hc as (r & a & Hr & Ha & Hz).
  rewrite forallb_forall in Hall.
  specialize (Hall r). rewrite Ha in Hall.
  assert (Hin : In r (_matrix s)).
  { apply list_elem_of_In. by eapply list_elem_of_lookup_2. }
  specialize (Hall Hin). rewrite forallb_forall in Hall.
  specialize (Hall (Num z)). simpl in Hall.
  assert (Hv : In (Num z) a).
  { apply list_elem_of_In. by eapply list_elem_of_lookup_2. }
  specialize (Hall Hv). by apply bool_decide_eq_true in Hall.
Qed.

Lemma separate_spec s o :
  separate s o → ∀ r, r ∈ _matrix s → r ∉ _matrix o.
Proof. unfold separate. rewrite Forall_forall. auto. Qed.

(** * The constructor *)

Lemma allocateArray_const {A} (x : A) n h :
  allocateArray n (ret x) h = (Ok (replicate n x), h).
Proof.
  induction n as [|n IH]; simpl; [done |].
  rewrite (bind_ok _ _ h x h) by done.
  by rewrite (bind_ok _ _ _ _ _ IH).
Qed.

Lemma allocateArray_rows w n : ∀ h,
  allocateArray n
    (let* row := allocateArray w (ret (Num 0)) in alloc_array row) h
  = (Ok (seq (length (arrays h)) n),
     mkHeap (sketches h) (arrays h ++ replicate n (replicate w (Num 0)))).
Proof.
  induction n as [|n IH]; intros h; simpl.
  - rewrite app_nil_r. by destruct h.
  - set (h1 := mkHeap (sketches h) (arrays h ++ [replicate w (Num 0)])).
    rewrite (bind_ok _ _ h (length (arrays h)) h1).
    2:{ by rewrite (bind_ok _ _ _ _ _ (allocateArray_const _ _ _)). }
    rewrite (bind_ok _ _ _ _ _ (IH h1)). unfold ret. simpl.
    rewrite length_app. simpl. rewrite Nat.add_1_r.
    by rewrite <- app_assoc.
Qed.

Lemma new_CountMinSketch_effect w d seed h :
  let w' := default 2048%nat w in
  let d' := default 1%nat d in
  new_CountMinSketch w d seed h
  = (Ok (length (sketches h)),
     mkHeap (sketches h ++ [fresh_sketch h w' d'])
            (arrays h ++ replicate d' (replicate w' (Num 0)))).
Proof.
  intros w' d'. unfold new_CountMinSketch.
  by rewrite (bind_ok _ _ _ _ _ (allocateArray_rows _ _ _)).
Qed.

Lemma fresh_sketch_wf h w d :
  wf_sketch (mkHeap (sketches h ++ [fresh_sketch h w d])
               (arrays h ++ replicate d (replicate w (Num 0))))
    (fresh_sketch h w d).
Proof.
  split; simpl.
  - apply length_seq.
  - apply NoDup_seq.
  - intros r Hr. apply elem_of_seq in Hr. exists (replicate w (Num 0)).
    split; [| split].
    + rewrite lookup_app_r by lia. apply lookup_replicate_2. lia.
    + apply length_replicate.
    + by apply Forall_replicate.
Qed.

(** The constructor returns a well-formed sketch with [_N = 0] and every
    cell 0. *)
Lemma new_CountMinSketch_wf w d seed h :
  ∃ this h' s,
    new_CountMinSketch (Some w) (Some d) seed h = (Ok this, h')
    ∧ sketches h' !! this = Some s
    ∧ _columns s = w ∧ _rows s = d ∧ _N s = 0
    ∧ wf_sketch h' s.
Proof.
  rewrite new_CountMinSketch_effect. simpl.
  eexists _, _, _. split; [reflexivity |]. split.
  { simpl. by apply list_lookup_middle. }
  repeat split; try done; apply fresh_sketch_wf.
Qed.

Lemma fresh_sketch_cell h w d i j :
  (i < d)%nat → (j < w)%nat →
  cell (mkHeap (sketches h ++ [fresh_sketch h w d])
          (arrays h ++ replicate d (replicate w (Num 0))))
    (fresh_sketch h w d) i j = Num 0.
Proof.
  intros Hi Hj. unfold cell. simpl. rewrite lookup_seq_lt by done.
  rewrite lookup_app_r by lia.
  rewrite lookup_replicate_2 by lia. simpl.
  by rewrite lookup_replicate_2.
Qed.

(** * merge *)

(** The inner loop of [merge] on row [i], whose array [r] is not the
    array [q] it reads from. *)
Lemma merge_row_loop mt mo i r q a b w h :
  mt !! i = Some r → mo !! i = Some q → r ≠ q →
  arrays h !! r = Some a → arrays h !! q = Some b → length a = w →
  ∃ h' a',
    for_loop 0 w (λ j _, merge_cell mt mo i j) tt h = (Ok tt, h')
    ∧ sketches h' = sketches h
    ∧ length (arrays h') = length (arrays h)
    ∧ (∀ r', r' ≠ r → arrays h' !! r' = arrays h !! r')
    ∧ arrays h' !! r = Some a'
    ∧ length a' = w
    ∧ (∀ k, (k < w)%nat →
         a' !! k = Some (js_add (array_get a (Some k)) (array_get b (Some k)))).
Proof.
  intros Hr Hq Hne Ha Hb Hlen.
  destruct (for_loop_inv (λ j _ h',
      sketches h' = sketches h
      ∧ length (arrays h') = length (arrays h)
      ∧ (∀ r', r' ≠ r → arrays h' !! r' = arrays h !! r')
      ∧ ∃ a', arrays h' !! r = Some a' ∧ length a' = w
          ∧ (∀ k, (k < j)%nat →
               a' !! k
               = Some (js_add (array_get a (Some k)) (array_get b (Some k))))
          ∧ (∀ k, (j ≤ k)%nat → a' !! k = a !! k))
    (λ j _, merge_cell mt mo i j) w 0%nat tt h) as (u & h' & Hrun & Hinv).
  - repeat split; auto. exists a. repeat split; auto. intros; lia.
  - intros j [] h0 Hj (Hs & Hl & Hout & a0 & Ha0 & Hl0 & Hlo & Hhi).
    set (v := js_add (array_get a0 (Some j)) (array_get b (Some j))).
    exists tt, (mkHeap (sketches h0) (<[r:=<[j:=v]> a0]> (arrays h0))). split.
    { unfold merge_cell.
      rewrite (bind_ok _ _ _ _ _ (matrix_row_ok _ _ _ _ Hr)).
      rewrite (bind_ok _ _ _ _ _ (matrix_row_ok _ _ _ _ Hq)).
      rewrite (bind_ok _ _ _ _ _ (get_array_ok _ _ _ Ha0)).
      rewrite (bind_ok _ _ h0 b h0).
      2:{ apply get_array_ok. by rewrite Hout. }
      unfold set_array, array_set. rewrite decide_True by lia. done. }
    simpl. repeat split; auto.
    + by rewrite length_insert.
    + intros r' Hr'. rewrite list_lookup_insert_ne by done. by apply Hout.
    + exists (<[j:=v]> a0). repeat split.
      * apply list_lookup_insert_eq. rewrite Hl. by eapply lookup_lt_Some.
      * by rewrite length_insert.
      * intros k Hk. destruct (decide (k = j)) as [-> | Hkj].
        -- rewrite list_lookup_insert_eq by lia. unfold v, array_get.
           by rewrite (Hhi j) by lia.
        -- rewrite list_lookup_insert_ne by done. apply Hlo. lia.
      * intros k Hk. rewrite list_lookup_insert_ne by lia. apply Hhi. lia.
  - destruct u. destruct Hinv as (Hs & Hl & Hout & a' & Ha' & Hl' & Hlo & _).
    exists h', a'. repeat split; auto.
Qed.

Lemma merge_unfold this sketch s o h :
  sketches h !! this = Some s → sketches h !! sketch = Some o →
  merge this sketch h =
    if decide (_columns s ≠ _columns o) then
      (Throw (Error "Cannot merge two sketches with different number of columns"), h)
    else if decide (_rows s ≠ _rows o) then
      (Throw (Error "Cannot merge two sketches with different number of rows"), h)
    else
      for_loop 0 (_rows s) (λ i _,
        for_loop 0 (_columns s)
          (λ j _, merge_cell (_matrix s) (_matrix o) i j) tt)
        tt h.
Proof.
  intros Hs Ho. unfold merge.
  rewrite (bind_ok _ _ _ _ _ (get_sketch_ok _ _ _ Hs)).
  rewrite (bind_ok _ _ _ _ _ (get_sketch_ok _ _ _ Ho)).
  destruct (decide (_columns s ≠ _columns o)); [done |].
  destruct (decide (_rows s ≠ _rows o)); done.
Qed.

(** What [merge] does to the heap when the dimensions agree. *)
Lemma merge_effect this sketch s o h :
  sketches h !! this = Some s → sketches h !! sketch = Some o →
  wf_sketch h s → wf_sketch h o →
  _columns s = _columns o → _rows s = _rows o →
  (∀ r, r ∈ _matrix s → r ∉ _matrix o) →
  ∃ h',
    merge this sketch h = (Ok tt, h')
    ∧ sketches h' = sketches h
    ∧ length (arrays h') = length (arrays h)
    ∧ (∀ r, r ∉ _matrix s → arrays h' !! r = arrays h !! r)
    ∧ wf_sketch h' s
    ∧ (∀ i j z1 z2, cell h s i j = Num z1 → cell h o i j = Num z2 →
         cell h' s i j = Num (z1 + z2)).
Proof.
  intros Hs Ho Hwfs Hwfo Hc Hr Hdisj.
  rewrite (merge_unfold _ _ _ _ _ Hs Ho).
  rewrite decide_False by (intros ?; done).
  rewrite decide_False by (intros ?; done).
  set (w := _columns s).
  destruct (for_loop_inv (λ i _ h',
      sketches h' = sketches h
      ∧ length (arrays h') = length (arrays h)
      ∧ (∀ r, r ∉ take i (_matrix s) → arrays h' !! r = arrays h !! r)
      ∧ (∀ i' r q a b, (i' < i)%nat →
           _matrix s !! i' = Some r → _matrix o !! i' = Some q →
           arrays h !! r = Some a → arrays h !! q = Some b →
           ∃ a', arrays h' !! r = Some a' ∧ length a' = w
             ∧ ∀ k, (k < w)%nat →
                 a' !! k
                 = Some (js_add (array_get a (Some k)) (array_get b (Some k)))))
    (λ i _, for_loop 0 w (λ j _, merge_cell (_matrix s) (_matrix o) i j) tt)
    (_rows s) 0%nat tt h) as (u & h' & Hrun & Hinv).
  - repeat split; auto. intros; lia.
  - intros i [] h0 Hi (Hsk & Hl & Hout & Hin).
    destruct (wf_row h s i Hwfs) as (r & a & Hri & Ha & Hla & _); [lia |].
    destruct (wf_row h o i Hwfo) as (q & b & Hqi & Hb & Hlb & _); [lia |].
    assert (Hrq : r ≠ q).
    { intros ->. eapply Hdisj; by eapply list_elem_of_lookup_2. }
    assert (Hrt : r ∉ take i (_matrix s)).
    { rewrite elem_of_take. intros (i0 & Hi0 & Hlt).
      pose proof (NoDup_lookup _ _ _ _ (wf_NoDup _ _ Hwfs) Hi0 Hri). lia. }
    assert (Hqt : q ∉ take i (_matrix s)).
    { rewrite elem_of_take. intros (i0 & Hi0 & Hlt).
      eapply Hdisj; by eapply list_elem_of_lookup_2. }
    destruct (merge_row_loop (_matrix s) (_matrix o) i r q a b w h0)
      as (h1 & a' & Hrun1 & Hs1 & Hl1 & Hout1 & Ha' & Hla' & Hsum); try done.
    { by rewrite Hout. } { by rewrite Hout. }
    exists tt, h1. split; [done |]. repeat split.
    + congruence.
    + congruence.
    + intros r' Hr'. rewrite (take_S_r _ _ _ Hri), not_elem_of_app in Hr'.
      destruct Hr' as [Hr1 Hr2]. rewrite list_elem_of_singleton in Hr2.
      rewrite Hout1 by done. by apply Hout.
    + intros i' r' q' a0 b0 Hi' Hr' Hq' Ha0 Hb0.
      destruct (decide (i' = i)) as [-> | Hne].
      * assert (r' = r) by congruence. assert (q' = q) by congruence.
        subst r' q'. assert (a0 = a) by congruence.
        assert (b0 = b) by congruence. subst a0 b0. by exists a'.
      * rewrite Hout1.
        -- apply (Hin i' r' q' a0 b0); auto. lia.
        -- intros ->. apply Hne.
           by eapply (NoDup_lookup _ _ _ _ (wf_NoDup _ _ Hwfs)).
  - destruct u. destruct Hinv as (Hsk & Hl & Hout & Hin). simpl in Hin.
    assert (Hrows : ∀ i r, _matrix s !! i = Some r →
       ∃ q a b a', _matrix o !! i = Some q ∧ arrays h !! r = Some a
         ∧ arrays h !! q = Some b ∧ arrays h' !! r = Some a' ∧ length a' = w
         ∧ Forall is_int a ∧ Forall is_int b ∧ length a = w ∧ length b = w
         ∧ ∀ k, (k < w)%nat →
             a' !! k
             = Some (js_add (array_get a (Some k)) (array_get b (Some k)))).
    { intros i r Hri.
      assert (Hi : (i < _rows s)%nat).
      { rewrite <- (wf_length _ _ Hwfs). by eapply lookup_lt_Some. }
      destruct (wf_row h s i Hwfs Hi) as (r0 & a & Hri0 & Ha & Hla & Hia).
      assert (r0 = r) by congruence. subst r0.
      destruct (wf_row h o i Hwfo) as (q & b & Hqi & Hb & Hlb & Hib); [lia |].
      destruct (Hin i r q a b Hi Hri Hqi Ha Hb) as (a' & Ha' & Hla' & Hsum).
      exists q, a, b, a'. repeat split; auto. unfold w. congruence. }
    exists h'. split; [exact Hrun |]. repeat split; auto.
    + intros r Hr'. apply Hout. intros Hel. apply Hr'.
      apply elem_of_take in Hel as (i & Hi & _). by eapply list_elem_of_lookup_2.
    + apply (wf_length _ _ Hwfs).
    + apply (wf_NoDup _ _ Hwfs).
    + intros r Hel. apply list_elem_of_lookup in Hel as [i Hi].
      destruct (Hrows i r Hi)
        as (q & a & b & a' & Hq & Ha & Hb & Ha' & Hla' & Hia & Hib & Hla & Hlb & Hsum).
      exists a'. repeat split; auto.
      apply Forall_lookup. intros k x Hx.
      assert (Hk : (k < w)%nat) by (rewrite <- Hla'; by eapply lookup_lt_Some).
      rewrite (Hsum k Hk) in Hx. injection Hx as <-.
      destruct (lookup_lt_is_Some_2 a k) as [va Hva]; [lia |].
      destruct (lookup_lt_is_Some_2 b k) as [vb Hvb]; [lia |].
      rewrite Forall_lookup in Hia, Hib.
      specialize (Hia _ _ Hva). specialize (Hib _ _ Hvb).
      unfold array_get. rewrite Hva, Hvb. simpl.
      by destruct va, vb.
    + intros i j z1 z2 Hc1 Hc2.
      apply cell_Num_inv in Hc1 as (r & a & Hri & Ha & Hz1).
      apply cell_Num_inv in Hc2 as (q & b & Hqi & Hb & Hz2).
      destruct (Hrows i r Hri)
        as (q0 & a0 & b0 & a' & Hq & Ha0 & Hb0 & Ha' & Hla' & Hia & Hib & Hla & Hlb & Hsum).
      assert (q0 = q) by congruence. subst q0.
      assert (a0 = a) by congruence. assert (b0 = b) by congruence. subst a0 b0.
      assert (Hj : (j < w)%nat) by (rewrite <- Hla; by eapply lookup_lt_Some).
      unfold cell. rewrite Hri, Ha'. simpl. rewrite (Hsum j Hj). simpl.
      by rewrite Hz1, Hz2.
Qed.

(** * clone *)

(** [clone] adds one object to the heap: its rows are new arrays that hold
    the cells of the original, its seed is the seed of the original, and
    its [_N] is the 0 the constructor wrote. *)
Lemma clone_effect this s h :
  sketches h !! this = Some s →
  wf_sketch h s →
  ∃ h',
    clone this h = (Ok (length (sketches h)), h')
    ∧ sketches h'
      = sketches h
        ++ [with_seed (fresh_sketch h (_columns s) (_rows s)) (_seed s)]
    ∧ (∀ r, (r < length (arrays h))%nat → arrays h' !! r = arrays h !! r)
    ∧ (∀ i j z, cell h s i j = Num z →
         cell h' (fresh_sketch h (_columns s) (_rows s)) i j = Num z).
Proof.
  intros Hs Hwf. set (f := fresh_sketch h (_columns s) (_rows s)).
  set (h1 := mkHeap (sketches h ++ [f])
               (arrays h ++ replicate (_rows s) (replicate (_columns s) (Num 0)))).
  assert (Hlt : ∀ r, r ∈ _matrix s → (r < length (arrays h))%nat).
  { intros r Hel. destruct (wf_rows _ _ Hwf r Hel) as (a & Ha & _).
    by eapply lookup_lt_Some. }
  assert (Hframe : ∀ r, r ∈ _matrix s → arrays h1 !! r = arrays h !! r).
  { intros r Hel. simpl. apply lookup_app_l. by apply Hlt. }
  assert (Hs1 : sketches h1 !! this = Some s) by (by apply lookup_app_l_Some).
  assert (Hf1 : sketches h1 !! length (sketches h) = Some f)
    by (by apply list_lookup_middle).
  destruct (merge_effect (length (sketches h)) this f s h1 Hf1 Hs1)
    as (h2 & Hrun & Hsk & Hl2 & Hout & Hwf2 & Hsum); try done.
  { apply fresh_sketch_wf. }
  { by apply (wf_frame h). }
  { intros r Hel Hel'. apply elem_of_seq in Hel. specialize (Hlt r Hel'). lia. }
  exists (mkHeap (sketches h ++ [with_seed f (_seed s)]) (arrays h2)).
  split; [| split; [| split]].
  - unfold clone. rewrite (bind_ok _ _ _ _ _ (get_sketch_ok _ _ _ Hs)).
    rewrite (bind_ok _ _ _ _ _ (new_CountMinSketch_effect _ _ _ _)).
    simpl default. fold f. fold h1.
    rewrite (bind_ok _ _ _ _ _ Hrun).
    rewrite (bind_ok _ _ h2 (_seed s) h2).
    2:{ unfold get_seed. erewrite (bind_ok (get_sketch this));
          [done | apply get_sketch_ok; by rewrite Hsk]. }
    destruct h2 as [sk2 ar2]. simpl in Hsk. subst sk2.
    rewrite (bind_ok _ _ _ tt
               (mkHeap (sketches h ++ [with_seed f (_seed s)]) ar2)).
    2:{ unfold set_seed. rewrite (bind_ok _ _ _ _ _ (get_sketch_last _ _ _)).
        by rewrite set_sketch_last. }
    done.
  - done.
  - intros r Hr. simpl. rewrite Hout.
    + simpl. by apply lookup_app_l.
    + simpl. intros Hel. apply elem_of_seq in Hel. lia.
  - intros i j z Hz.
    assert (Hi : (i < _rows s)%nat ∧ (j < _columns s)%nat).
    { apply cell_Num_inv in Hz as (r & a & Hr & Ha & Hj).
      destruct (wf_rows _ _ Hwf r) as (a' & Ha' & Hla & _);
        [by eapply list_elem_of_lookup_2 |].
      assert (a' = a) by congruence. subst a'. split.
      - rewrite <- (wf_length _ _ Hwf). by eapply lookup_lt_Some.
      - rewrite <- Hla. by eapply lookup_lt_Some. }
    destruct Hi as [Hi Hj].
    replace z with (0 + z) by lia.
    change (cell (mkHeap (sketches h ++ [with_seed f (_seed s)]) (arrays h2)) f i j)
      with (cell h2 f i j).
    apply Hsum.
    + by apply fresh_sketch_cell.
    + rewrite (cell_frame h h1); [done | done].
Qed.

(** * Export and import *)

Lemma export_rows_loop m h :
  (∀ r, r ∈ m → is_Some (arrays h !! r)) →
  for_loop 0 (length m) (λ i acc,
      let* r := matrix_row m i in
      let* a := get_array r in
      let* r' := alloc_array a in
      ret (acc ++ [r'])) [] h
  = (Ok (seq (length (arrays h)) (length m)),
     mkHeap (sketches h) (arrays h ++ rows_at h m)).
Proof.
  intros Hlive.
  destruct (for_loop_inv (λ k acc hk,
      acc = seq (length (arrays h)) k
      ∧ hk = mkHeap (sketches h) (arrays h ++ rows_at h (take k m)))
    (λ i acc,
      let* r := matrix_row m i in
      let* a := get_array r in
      let* r' := alloc_array a in
      ret (acc ++ [r'])) (length m) 0%nat [] h) as (acc & h' & Hrun & Hacc & Hh).
  - split; [done |]. rewrite take_0. unfold rows_at. simpl.
    rewrite app_nil_r. by destruct h.
  - intros k acc hk Hk [-> ->].
    destruct (lookup_lt_is_Some_2 m k) as [r Hr]; [lia |].
    destruct (Hlive r) as [a Ha]; [by eapply list_elem_of_lookup_2 |].
    eexists _, _. split.
    { rewrite (bind_ok _ _ _ _ _ (matrix_row_ok _ _ _ _ Hr)).
      erewrite (bind_ok (get_array r));
        [| apply get_array_ok; simpl; by apply lookup_app_l_Some].
      unfold alloc_array, bind, ret. simpl. reflexivity. }
    split.
    + rewrite length_app. unfold rows_at. rewrite length_fmap, length_take.
      rewrite Nat.min_l by lia. by rewrite seq_S.
    + f_equal. rewrite <- app_assoc. f_equal.
      rewrite (take_S_r _ _ _ Hr). unfold rows_at. rewrite fmap_app. simpl.
      by rewrite Ha.
  - rewrite Hrun. subst acc h'. simpl. by rewrite take_ge by lia.
Qed.

Lemma saveAsJSON_effect this s h :
  sketches h !! this = Some s → live h s →
  saveAsJSON this h
  = (Ok (JSON.mk (Some "CountMinSketch")
           (Some (seq (length (arrays h)) (length (_matrix s))))
           (Some (_seed s)) (Some (_N s)) (Some (_rows s)) (Some (_columns s))),
     mkHeap (sketches h) (arrays h ++ rows_at h (_matrix s))).
Proof.
  intros Hs Hlive. unfold saveAsJSON, cloneObject_CountMinSketch.
  rewrite (bind_ok _ _ _ _ _ (get_sketch_ok _ _ _ Hs)).
  by rewrite (bind_ok _ _ _ _ _ (export_rows_loop _ _ Hlive)).
Qed.

(** The guard of [import] is the negation of [well_formed_payload]. *)
Lemma import_guard json :
  bool_decide (JSON.type json ≠ Some "CountMinSketch")
  || negb (assertFields json ["_matrix"; "_seed"; "_N"; "_rows"; "_columns"])
  = bool_decide (¬ well_formed_payload json).
Proof.
  destruct json as [ty m sd n r c]. unfold well_formed_payload. simpl.
  destruct (decide (ty = Some "CountMinSketch")) as [-> | Hty].
  - destruct m, sd, n, r, c;
      (symmetry; first
         [ (apply bool_decide_eq_true_2;
            intros (_ & [? ?] & [? ?] & [? ?] & [? ?] & [? ?]); done)
         | (apply bool_decide_eq_false_2; intros H; apply H;
            repeat split; eauto) ]).
  - rewrite (bool_decide_eq_true_2 (ty ≠ _)) by done. simpl.
    symmetry. apply bool_decide_eq_true_2. intros [? _]. done.
Qed.

Lemma import_effect m sd n r c h :
  import (JSON.mk (Some "CountMinSketch") (Some m) (Some sd) (Some n)
            (Some r) (Some c)) h
  = (Ok (length (sketches h)),
     mkHeap (sketches h ++ [mkCountMinSketch sd c r m n])
            (arrays h ++ replicate r (replicate c (Num 0)))).
Proof.
  unfold import. rewrite import_guard.
  rewrite bool_decide_eq_false_2.
  2:{ intros H. apply H. unfold well_formed_payload. simpl. repeat split; eauto. }
  simpl JSON._columns. simpl JSON._rows. simpl JSON._matrix.
  simpl JSON._N. simpl JSON._seed.
  rewrite (bind_ok _ _ _ _ _ (new_CountMinSketch_effect _ _ _ _)).
  simpl default. unfold field.
  rewrite (bind_ok _ _ _ m _) by done.
  rewrite (bind_ok _ _ _ _ _ (get_sketch_last _ _ _)).
  rewrite (bind_ok _ _ _ _ _ (set_sketch_last _ _ _ _)).
  rewrite (bind_ok _ _ _ n _) by done.
  rewrite (bind_ok _ _ _ _ _ (get_sketch_last _ _ _)).
  rewrite (bind_ok _ _ _ _ _ (set_sketch_last _ _ _ _)).
  rewrite (bind_ok _ _ _ sd _) by done.
  unfold set_seed.
  rewrite (bind_ok _ _ _ tt
             (mkHeap (sketches h ++ [mkCountMinSketch sd c r m n])
                (arrays h ++ replicate r (replicate c (Num 0))))).
  2:{ rewrite (bind_ok _ _ _ _ _ (get_sketch_last _ _ _)).
      by rewrite set_sketch_last. }
  done.
Qed.

(** * The estimate as a function of the contents of the rows *)

Lemma estimate_ext row1 row2 indexes n : ∀ i acc,
  (∀ k, (i ≤ k < i + n)%nat → row1 k = row2 k) →
  estimate row1 indexes i n acc = estimate row2 indexes i n acc.
Proof.
  induction n as [|n IH]; intros i acc Hrow; simpl; [done |].
  rewrite <- (Hrow i) by lia. destruct (row1 i); [| done].
  apply IH. intros k Hk. apply Hrow. lia.
Qed.

Lemma count_loop_pure m indexes h n : ∀ i acc,
  for_loop i n (λ i min,
      let* r := matrix_row m i in
      let* a := get_array r in
      let v := array_get a (indexes !! i) in
      ret (Math_min v min)) acc h
  = (estimate (row_of h m) indexes i n acc, h).
Proof.
  induction n as [|n IH]; intros i acc; simpl; [done |].
  unfold row_of at 1.
  destruct (m !! i) as [r|] eqn:Hr; simpl.
  - destruct (arrays h !! r) as [a|] eqn:Ha.
    + erewrite bind_ok; [apply IH |].
      rewrite (bind_ok _ _ _ _ _ (matrix_row_ok _ _ _ _ Hr)).
      by rewrite (bind_ok _ _ _ _ _ (get_array_ok _ _ _ Ha)).
    + apply bind_throw.
      rewrite (bind_ok _ _ _ _ _ (matrix_row_ok _ _ _ _ Hr)).
      apply bind_throw. unfold get_array. simpl. by rewrite Ha.
  - apply bind_throw. apply bind_throw. unfold matrix_row. by rewrite Hr.
Qed.

(** * The sample hash fulfils the contract *)

Lemma sample_indices_spec : distinct_indices_spec sample_indices.
Proof.
  intros element size number seed Hle. unfold sample_indices.
  rewrite decide_True by done. eexists. split; [reflexivity |].
  set (b := Z.of_nat (String.length element) + seed).
  split; [| split].
  - by rewrite length_fmap, length_seq.
  - apply NoDup_fmap_2_strong; [| apply NoDup_seq].
    intros i j Hi Hj Heq. apply elem_of_seq in Hi, Hj.
    assert (Hs : 0 < Z.of_nat size) by lia.
    pose proof (Z.mod_pos_bound (b + Z.of_nat i) (Z.of_nat size) Hs) as Hbi.
    pose proof (Z.mod_pos_bound (b + Z.of_nat j) (Z.of_nat size) Hs) as Hbj.
    apply Z2Nat.inj in Heq; [| lia | lia].
    pose proof (Z.div_mod (b + Z.of_nat i) (Z.of_nat size)) as Hdi.
    pose proof (Z.div_mod (b + Z.of_nat j) (Z.of_nat size)) as Hdj.
    rewrite Heq in Hdi.
    assert (Hq : (b + Z.of_nat i) `div` Z.of_nat size
                 = (b + Z.of_nat j) `div` Z.of_nat size) by nia.
    nia.
  - apply Forall_fmap, Forall_seq. intros j Hj. simpl.
    assert (Hs : 0 < Z.of_nat size) by lia.
    pose proof (Z.mod_pos_bound (b + Z.of_nat j) (Z.of_nat size) Hs). lia.
Qed.

(** * update and count, for any hash that fulfils the contract *)

Section Theory.

Variable getDistinctIndices : string → nat → nat → Z → option (list nat).
Hypothesis getDistinctIndices_spec :
  distinct_indices_spec getDistinctIndices.

(** What [update] does to the heap. *)
Lemma update_effect this s x c h indexes :
  sketches h !! this = Some s →
  wf_sketch h s →
  getDistinctIndices x (_columns s) (_rows s) (_seed s) = Some indexes →
  ∃ h',
    update getDistinctIndices this x c h = (Ok tt, h')
    ∧ sketches h' = <[this:=with_N s (_N s + default 1 c)]> (sketches h)
    ∧ length (arrays h') = length (arrays h)
    ∧ (∀ r, r ∉ _matrix s → arrays h' !! r = arrays h !! r)
    ∧ (∀ i r a, _matrix s !! i = Some r → arrays h !! r = Some a →
         arrays h' !! r =
           Some (array_set a (indexes !! i)
                   (js_add (array_get a (indexes !! i))
                      (Num (default 1 c))))).
Proof.
  intros Hs Hwf Hidx. pose proof Hwf as [Hl Hnd Hr].
  set (s' := with_N s (_N s + default 1 c)).
  set (h1 := mkHeap (<[this:=s']> (sketches h)) (arrays h)).
  destruct (rowwise_loop (_matrix s)
    (λ i a, array_set a (indexes !! i)
              (js_add (array_get a (indexes !! i)) (Num (default 1 c))))
    (_rows s) h1) as (h' & Hrun & Hsk & Hlen & Hout & Hin).
  { done. } { lia. }
  { intros r Hel. destruct (Hr r Hel) as (a & Ha & _). by exists a. }
  exists h'. split; [| repeat split].
  - unfold update. rewrite (bind_ok _ _ _ _ _ (get_sketch_ok _ _ _ Hs)).
    rewrite (bind_ok _ _ h tt h1) by done.
    rewrite (bind_ok _ _ h1 s' h1).
    2:{ apply get_sketch_ok. simpl. apply list_lookup_insert_eq.
        by eapply lookup_lt_Some. }
    unfold getDistinctIndices_call. simpl. rewrite Hidx.
    rewrite (bind_ok _ _ h1 indexes h1) by done. exact Hrun.
  - done.
  - done.
  - intros r Hel. apply Hout. intros Hel'. apply Hel.
    apply elem_of_take in Hel' as (i & Hi & _).
    by eapply list_elem_of_lookup_2.
  - intros i r a Hi Ha. apply (Hin i r a); [| done | done].
    rewrite <- Hl. by eapply lookup_lt_Some.
Qed.

(** The same on the cells, when there is an index below [_columns] for
    every row. *)
Lemma update_cells this s x c h indexes :
  sketches h !! this = Some s →
  wf_sketch h s →
  getDistinctIndices x (_columns s) (_rows s) (_seed s) = Some indexes →
  length indexes = _rows s →
  Forall (λ j, (j < _columns s)%nat) indexes →
  ∃ h',
    update getDistinctIndices this x c h = (Ok tt, h')
    ∧ sketches h' = <[this:=with_N s (_N s + default 1 c)]> (sketches h)
    ∧ length (arrays h') = length (arrays h)
    ∧ (∀ r, r ∉ _matrix s → arrays h' !! r = arrays h !! r)
    ∧ wf_sketch h' s
    ∧ (∀ i j ji z, indexes !! i = Some ji → cell h s i j = Num z →
         cell h' s i j
         = Num (if decide (j = ji) then z + default 1 c else z)).
Proof.
  intros Hs Hwf Hidx Hlen Hrange.
  destruct (update_effect this s x c h indexes Hs Hwf Hidx)
    as (h' & Hrun & Hsk & Hla & Hout & Hin).
  assert (Hrow : ∀ i r a ji,
            _matrix s !! i = Some r → arrays h !! r = Some a →
            indexes !! i = Some ji →
            ∃ zi, a !! ji = Some (Num zi)
                  ∧ arrays h' !! r = Some (<[ji:=Num (zi + default 1 c)]> a)).
  { intros i r a ji Hr Ha Hji.
    destruct Hwf as [_ _ Hrows].
    destruct (Hrows r) as (a0 & Ha0 & Hlen0 & Hint);
      [by eapply list_elem_of_lookup_2 |].
    assert (a0 = a) by congruence. subst a0.
    rewrite Forall_lookup in Hrange. specialize (Hrange _ _ Hji).
    simpl in Hrange.
    destruct (lookup_lt_is_Some_2 a ji) as [v Hv]; [lia |].
    rewrite Forall_lookup in Hint. specialize (Hint _ _ Hv).
    destruct v as [zi| |]; try done. exists zi. split; [done |].
    rewrite (Hin i r a Hr Ha), Hji. unfold array_set, array_get.
    rewrite Hv. simpl. rewrite decide_True by lia. done. }
  exists h'. repeat split; try done.
  - by destruct Hwf.
  - by destruct Hwf.
  - intros r Hel. pose proof Hel as Hel'.
    apply list_elem_of_lookup in Hel' as [i Hi].
    destruct Hwf as [Hl _ Hrows].
    destruct (Hrows r Hel) as (a & Ha & Hlen0 & Hint).
    destruct (lookup_lt_is_Some_2 indexes i) as [ji Hji].
    { rewrite Hlen, <- Hl. by eapply lookup_lt_Some. }
    destruct (Hrow i r a ji Hi Ha Hji) as (zi & Hzi & Ha').
    exists (<[ji:=Num (zi + default 1 c)]> a). split; [done |].
    rewrite length_insert. split; [done |]. by apply Forall_insert.
  - intros i j ji z Hji Hc.
    apply cell_Num_inv in Hc as (r & a & Hr & Ha & Hz).
    destruct (Hrow i r a ji Hr Ha Hji) as (zi & Hzi & Ha').
    unfold cell. rewrite Hr, Ha'. simpl.
    destruct (decide (j = ji)) as [-> | Hne].
    + rewrite list_lookup_insert_eq by (by eapply lookup_lt_Some).
      simpl. congruence.
    + rewrite list_lookup_insert_ne by done. by rewrite Hz.
Qed.

(** [count] returns the minimum over the rows and leaves the heap as it
    is. *)
Lemma count_effect this s x h indexes :
  sketches h !! this = Some s →
  wf_sketch h s →
  getDistinctIndices x (_columns s) (_rows s) (_seed s) = Some indexes →
  length indexes = _rows s →
  Forall (λ j, (j < _columns s)%nat) indexes →
  ∃ v, count getDistinctIndices this x h = (Ok v, h)
       ∧ estimate_upto h s indexes (_rows s) v.
Proof.
  intros Hs Hwf Hidx Hlen Hrange.
  unfold count. rewrite (bind_ok _ _ _ _ _ (get_sketch_ok _ _ _ Hs)).
  unfold getDistinctIndices_call. rewrite Hidx.
  rewrite (bind_ok _ _ h indexes h) by done.
  destruct (for_loop_inv
    (λ k acc h', h' = h ∧ estimate_upto h s indexes k acc)
    (λ i min,
       let* r := matrix_row (_matrix s) i in
       let* a := get_array r in
       let v := array_get a (indexes !! i) in
       ret (Math_min v min))
    (_rows s) 0%nat Infinity h) as (v & h' & Hrun & -> & Hest).
  - done.
  - intros k acc h0 Hk [-> Hacc].
    destruct (wf_row h s k Hwf) as (r & a & Hr & Ha & Hla & Hint); [lia |].
    destruct (lookup_lt_is_Some_2 indexes k) as [jk Hjk]; [lia |].
    rewrite Forall_lookup in Hrange. pose proof (Hrange _ _ Hjk) as Hjr.
    simpl in Hjr.
    destruct (lookup_lt_is_Some_2 a jk) as [v Hv]; [lia |].
    rewrite Forall_lookup in Hint. pose proof (Hint _ _ Hv) as Hvi.
    destruct v as [zk| |]; try done.
    assert (Hck : cell h s k jk = Num zk).
    { unfold cell. rewrite Hr, Ha. simpl. by rewrite Hv. }
    exists (Math_min (Num zk) acc), h. split.
    { rewrite (bind_ok _ _ _ _ _ (matrix_row_ok _ _ _ _ Hr)).
      rewrite (bind_ok _ _ _ _ _ (get_array_ok _ _ _ Ha)).
      simpl. rewrite Hjk. simpl. by rewrite Hv. }
    split; [done |].
    destruct acc as [z| |]; simpl in *; [| subst k | done].
    + destruct Hacc as [(i & ji & Hi & Hji & Hc) Hmin]. split.
      * destruct (Z.min_spec zk z) as [[? ->] | [? ->]].
        -- exists k, jk. repeat split; [lia | done | done].
        -- exists i, ji. repeat split; [lia | done | done].
      * intros i' ji' zi' Hi' Hji' Hc'.
        destruct (decide (i' = k)) as [-> | Hne].
        -- assert (ji' = jk) by congruence. subst ji'.
           assert (zi' = zk) by congruence. lia.
        -- assert (z ≤ zi') by (apply (Hmin i' ji'); [lia | done | done]).
           lia.
    + split.
      * exists 0%nat, jk. repeat split; [lia | done | done].
      * intros i' ji' zi' Hi' Hji' Hc'. assert (i' = 0%nat) by lia. subst i'.
        assert (ji' = jk) by congruence. subst ji'.
        assert (zi' = zk) by congruence. lia.
  - exists v. simpl in Hest. split; [exact Hrun | done].
Qed.

(** [count] depends on the heap through the contents of the rows only. *)
Lemma count_pure this s x h :
  sketches h !! this = Some s →
  count getDistinctIndices this x h
  = (match getDistinctIndices x (_columns s) (_rows s) (_seed s) with
     | Some indexes =>
         estimate (row_of h (_matrix s)) indexes 0 (_rows s) Infinity
     | None => Throw ParameterError
     end, h).
Proof.
  intros Hs. unfold count.
  rewrite (bind_ok _ _ _ _ _ (get_sketch_ok _ _ _ Hs)).
  unfold getDistinctIndices_call.
  destruct (getDistinctIndices x _ _ _) as [indexes|]; [| done].
  rewrite (bind_ok _ _ h indexes h) by done.
  apply count_loop_pure.
Qed.

(** A stream of updates with non-negative weights raises every cell that
    [x] is counted in by at least the weight of [x] in the stream. *)
Lemma updates_lower_bound this x indexes stream : ∀ s h,
  sketches h !! this = Some s →
  wf_sketch h s →
  (_rows s ≤ _columns s)%nat →
  Forall (λ p, 0 ≤ p.2) stream →
  getDistinctIndices x (_columns s) (_rows s) (_seed s) = Some indexes →
  ∃ h',
    updates getDistinctIndices this stream h = (Ok tt, h')
    ∧ sketches h' !! this = Some (with_N s (_N s + total_weight stream))
    ∧ wf_sketch h' s
    ∧ (∀ i j z, indexes !! i = Some j → cell h s i j = Num z →
         ∃ z', cell h' s i j = Num z' ∧ z + true_count x stream ≤ z').
Proof.
  induction stream as [|[y c] rest IH]; intros s h Hs Hwf Hdw Hpos Hx; simpl.
  - exists h. split; [done |]. split.
    { rewrite Hs. f_equal. destruct s; unfold with_N; simpl. f_equal. lia. }
    split; [done |]. intros i j z _ Hc. exists z. split; [done | lia].
  - apply Forall_cons in Hpos as [Hc Hrest]. simpl in Hc.
    destruct (getDistinctIndices_spec y (_columns s) (_rows s) (_seed s) Hdw)
      as (iy & Hy & Hly & _ & Hry).
    destruct (update_cells this s y (Some c) h iy Hs Hwf Hy Hly Hry)
      as (h1 & Hrun & Hsk & _ & _ & Hwf1 & Hcells).
    simpl in Hsk, Hcells.
    assert (Hs1 : sketches h1 !! this = Some (with_N s (_N s + c))).
    { rewrite Hsk. apply list_lookup_insert_eq. by eapply lookup_lt_Some. }
    destruct (IH (with_N s (_N s + c)) h1 Hs1 (wf_with_N _ _ _ Hwf1)
                Hdw Hrest Hx)
      as (h' & Hrun' & Hs' & Hwf' & Hcells').
    exists h'. split; [| split; [| split]].
    + by rewrite (bind_ok _ _ _ _ _ Hrun).
    + rewrite Hs'. f_equal. unfold with_N. simpl. f_equal. lia.
    + destruct Hwf' as [? ? ?]. by split.
    + intros i j z Hij Hz.
      assert (Hiy : ∃ jy, iy !! i = Some jy).
      { apply lookup_lt_is_Some_2. rewrite Hly.
        apply cell_Num_inv in Hz as (r & a & Hr & _).
        rewrite <- (wf_length _ _ Hwf). by eapply lookup_lt_Some. }
      destruct Hiy as [jy Hjy].
      pose proof (Hcells i j jy z Hjy Hz) as Hz1.
      destruct (Hcells' i j _ Hij Hz1) as (z' & Hz' & Hle).
      exists z'. split; [exact Hz' |].
      destruct (decide (y = x)) as [-> | Hne].
      * assert (iy = indexes) by congruence. subst iy.
        assert (jy = j) by congruence. subst jy.
        rewrite decide_True in Hle by done. lia.
      * destruct (decide (j = jy)); lia.
Qed.

(** ** Properties of update, count and the JSON round trip *)

(** C1. On a sketch with at least one row, whose counters are
    non-negative (as they are after [new CountMinSketch(w, d)]), at most
    as many rows as columns and a hash that fulfils its contract: every
    stream of updates with non-negative weights runs to its end, and
    afterwards [count(x)] is a number that is at least the sum of the
    weights of the updates of [x]. *)
Theorem count_never_underestimates this s stream x h :
  sketches h !! this = Some s →
  wf_sketch h s →
  nonneg_cells h s →
  (1 ≤ _rows s ≤ _columns s)%nat →
  Forall (λ p, 0 ≤ p.2) stream →
  ∃ h' z,
    updates getDistinctIndices this stream h = (Ok tt, h')
    ∧ count getDistinctIndices this x h' = (Ok (Num z), h')
    ∧ true_count x stream ≤ z.
Proof.
  intros Hs Hwf Hnn [Hd Hdw] Hpos.
  destruct (getDistinctIndices_spec x (_columns s) (_rows s) (_seed s) Hdw)
    as (ix & Hx & Hlx & _ & Hrx).
  destruct (updates_lower_bound this x ix stream s h Hs Hwf Hdw Hpos Hx)
    as (h' & Hrun & Hs' & Hwf' & Hcells).
  destruct (count_effect this _ x h' ix Hs' (wf_with_N _ _ _ Hwf') Hx Hlx Hrx)
    as (v & Hcount & Hest).
  destruct v as [z| |]; simpl in Hest; [| lia | done].
  exists h', z. split; [done |]. split; [done |].
  destruct Hest as [(i & ji & Hi & Hji & Hc) _].
  destruct (wf_cell h s i ji Hwf) as [z0 Hz0]; [done | |].
  { rewrite Forall_lookup in Hrx. by apply (Hrx _ _ Hji). }
  destruct (Hcells i ji z0 Hji Hz0) as (z' & Hz' & Hle).
  change (cell h' (with_N s (_N s + total_weight stream)) i ji)
    with (cell h' s i ji) in Hc.
  assert (z' = z) by congruence. subst z'.
  specialize (Hnn i ji z0 Hz0). lia.
Qed.

(** C2. [update(element, c)], with [c] left out meaning 1, adds [c] to
    [_N] and, in every row [i], adds [c] to the one cell
    [M[i][indexes[i]]], where [indexes] are the distinct indices that the
    hash derives from the element and the seed; every other cell of the
    matrix keeps its value. *)
Theorem update_adds_count_to_one_cell_per_row this s element c h :
  sketches h !! this = Some s →
  wf_sketch h s →
  (_rows s ≤ _columns s)%nat →
  ∃ indexes h',
    getDistinctIndices element (_columns s) (_rows s) (_seed s) = Some indexes
    ∧ update getDistinctIndices this element c h = (Ok tt, h')
    ∧ sketches h' !! this = Some (with_N s (_N s + default 1 c))
    ∧ (∀ i, (i < _rows s)%nat →
         ∃ hi, indexes !! i = Some hi ∧ (hi < _columns s)%nat
           ∧ ∀ j, (j < _columns s)%nat →
               ∃ z, cell h s i j = Num z
                 ∧ cell h' s i j
                   = Num (if decide (j = hi) then z + default 1 c else z)).
Proof.
  intros Hs Hwf Hdw.
  destruct (getDistinctIndices_spec element (_columns s) (_rows s) (_seed s)
              Hdw) as (iy & Hy & Hly & _ & Hry).
  destruct (update_cells this s element c h iy Hs Hwf Hy Hly Hry)
    as (h' & Hrun & Hsk & _ & _ & Hwf' & Hcells).
  exists iy, h'. repeat split; try done.
  - rewrite Hsk. apply list_lookup_insert_eq. by eapply lookup_lt_Some.
  - intros i Hi. destruct (lookup_lt_is_Some_2 iy i) as [hi Hhi]; [lia |].
    exists hi. split; [done |]. split.
    { rewrite Forall_lookup in Hry. by apply (Hry _ _ Hhi). }
    intros j Hj. destruct (wf_cell h s i j Hwf Hi Hj) as [z Hz].
    exists z. split; [done |]. by apply Hcells.
Qed.

(** C6. One update with a non-negative weight (the weight left out is 1),
    of any element, never decreases [count(x)]: the count after the
    update is greater than or equal to the count before. *)
Theorem update_never_decreases_count this s element c x h :
  sketches h !! this = Some s →
  wf_sketch h s →
  (_rows s ≤ _columns s)%nat →
  0 ≤ default 1 c →
  ∃ h' before after,
    count getDistinctIndices this x h = (Ok before, h)
    ∧ update getDistinctIndices this element c h = (Ok tt, h')
    ∧ count getDistinctIndices this x h' = (Ok after, h')
    ∧ number_le before after.
Proof.
  intros Hs Hwf Hdw Hc.
  destruct (getDistinctIndices_spec x (_columns s) (_rows s) (_seed s) Hdw)
    as (ix & Hx & Hlx & _ & Hrx).
  destruct (getDistinctIndices_spec element (_columns s) (_rows s) (_seed s)
              Hdw) as (iy & Hy & Hly & _ & Hry).
  destruct (count_effect this s x h ix Hs Hwf Hx Hlx Hrx)
    as (v & Hcount & Hest).
  destruct (update_cells this s element c h iy Hs Hwf Hy Hly Hry)
    as (h' & Hrun & Hsk & _ & _ & Hwf' & Hcells).
  assert (Hs' : sketches h' !! this = Some (with_N s (_N s + default 1 c))).
  { rewrite Hsk. apply list_lookup_insert_eq. by eapply lookup_lt_Some. }
  destruct (count_effect this _ x h' ix Hs' (wf_with_N _ _ _ Hwf') Hx Hlx Hrx)
    as (v' & Hcount' & Hest').
  exists h', v, v'. repeat split; try done.
  simpl in Hest'.
  destruct v' as [z'| |]; simpl in Hest'; [| by destruct v | done].
  destruct Hest' as [(i & ji & Hi & Hji & Hc') _].
  change (cell h' (with_N s (_N s + default 1 c)) i ji)
    with (cell h' s i ji) in Hc'.
  destruct v as [z| |]; simpl in Hest; [| lia | done].
  destruct Hest as [_ Hmin]. simpl.
  destruct (wf_cell h s i ji Hwf) as [z0 Hz0]; [done | |].
  { rewrite Forall_lookup in Hrx. by apply (Hrx _ _ Hji). }
  specialize (Hmin i ji z0 Hi Hji Hz0).
  destruct (lookup_lt_is_Some_2 iy i) as [jy Hjy]; [lia |].
  pose proof (Hcells i ji jy z0 Hjy Hz0) as Hnew.
  rewrite Hc' in Hnew. injection Hnew as ->.
  destruct (decide (ji = jy)); lia.
Qed.

(** C5. Importing the export of a sketch [S] gives a new sketch [S'] with
    the seed and the [_N] of [S], and for every element [x] the calls
    [S'.count(x)] and [S.count(x)] have the same outcome; [S] itself is
    not changed. *)
Theorem export_import_round_trip this s h :
  sketches h !! this = Some s →
  live h s →
  ∃ json h1 copy h2 s',
    saveAsJSON this h = (Ok json, h1)
    ∧ fromJSON json h1 = (Ok copy, h2)
    ∧ sketches h2 !! this = Some s
    ∧ sketches h2 !! copy = Some s'
    ∧ _seed s' = _seed s
    ∧ _N s' = _N s
    ∧ ∀ x, count getDistinctIndices copy x h2
           = count getDistinctIndices this x h2.
Proof.
  intros Hs Hlive.
  eexists _, _, _, _, _. split; [by apply saveAsJSON_effect |].
  split; [apply import_effect |]. simpl.
  split; [by apply lookup_app_l_Some |].
  split; [by apply list_lookup_middle |].
  split; [done |]. split; [done |].
  intros x.
  set (h2 := mkHeap _ _).
  rewrite (count_pure (length (sketches h)) _ x h2)
    by (by apply list_lookup_middle).
  rewrite (count_pure this s x h2) by (by apply lookup_app_l_Some).
  simpl. destruct (getDistinctIndices x _ _ _) as [indexes|]; [| done].
  f_equal. apply estimate_ext. intros k _. unfold row_of. simpl.
  destruct (_matrix s !! k) as [r|] eqn:Hr.
  - pose proof (lookup_lt_Some _ _ _ Hr) as Hk.
    rewrite lookup_seq_lt by done. simpl.
    destruct (Hlive r) as [a Ha]; [by eapply list_elem_of_lookup_2 |].
    rewrite <- app_assoc.
    rewrite (lookup_app_l_Some _ _ _ _ Ha).
    rewrite lookup_app_r by lia.
    replace (length (arrays h) + k - length (arrays h))%nat with k by lia.
    rewrite lookup_app_l by (unfold rows_at; by rewrite length_fmap).
    unfold rows_at. rewrite list_lookup_fmap, Hr. simpl. by rewrite Ha.
  - rewrite lookup_seq_ge; [done |]. by apply lookup_ge_None.
Qed.

End Theory.

(** * Properties of merge, clone, the constructor and import *)

(** C3, as amended. For two well-formed sketches that share no row array:
    [merge] adds the matrix of the argument to the matrix of the receiver,
    cell by cell, exactly when the two agree on the numbers of columns and
    of rows; when one of the two numbers differs it throws its error and
    the heap, hence the receiver, is as before.  The seeds are not
    compared. *)
Theorem merge_sums_exactly_when_dimensions_match this sketch s o h :
  sketches h !! this = Some s →
  sketches h !! sketch = Some o →
  wf_sketch h s → wf_sketch h o →
  separate s o →
  if decide (_columns s = _columns o ∧ _rows s = _rows o) then
    ∃ h',
      merge this sketch h = (Ok tt, h')
      ∧ ∀ i j, (i < _rows s)%nat → (j < _columns s)%nat →
          ∃ z1 z2, cell h s i j = Num z1 ∧ cell h o i j = Num z2
                   ∧ cell h' s i j = Num (z1 + z2)
  else
    ∃ e, IncompatibleShape e ∧ merge this sketch h = (Throw e, h).
Proof.
  intros Hs Ho Hwfs Hwfo Hsep. pose proof (separate_spec _ _ Hsep) as Hdisj.
  destruct (decide (_columns s = _columns o ∧ _rows s = _rows o))
    as [[Hc Hr] | Hne].
  - destruct (merge_effect this sketch s o h Hs Ho Hwfs Hwfo Hc Hr Hdisj)
      as (h' & Hrun & _ & _ & _ & _ & Hsum).
    exists h'. split; [done |]. intros i j Hi Hj.
    destruct (wf_cell h s i j Hwfs Hi Hj) as [z1 Hz1].
    destruct (wf_cell h o i j Hwfo) as [z2 Hz2]; [lia | lia |].
    exists z1, z2. repeat split; auto.
  - rewrite (merge_unfold _ _ _ _ _ Hs Ho).
    destruct (decide (_columns s ≠ _columns o)) as [Hc | Hc].
    { eexists. split; [| reflexivity]. by left. }
    destruct (decide (_rows s ≠ _rows o)) as [Hr | Hr].
    { eexists. split; [| reflexivity]. by right. }
    exfalso. apply Hne. split.
    + by destruct (decide (_columns s = _columns o)).
    + by destruct (decide (_rows s = _rows o)).
Qed.

(** C3, counterexample. With the seed among the values that must agree
    the statement fails: two sketches of one row and one column with
    different seeds are merged, the call does not throw and the cell of the
    receiver goes from 1 to 3. *)
Lemma merge_accepts_different_seeds :
  sketches heap_two_seeds !! 0%nat = Some sketch_a
  ∧ sketches heap_two_seeds !! 1%nat = Some sketch_b
  ∧ _seed sketch_a ≠ _seed sketch_b
  ∧ merge 0%nat 1%nat heap_two_seeds
    = (Ok tt, mkHeap [sketch_a; sketch_b] [[Num 3]; [Num 2]])
  ∧ ¬ (∃ e h', merge 0%nat 1%nat heap_two_seeds = (Throw e, h')).
Proof.
  repeat split; try done.
  intros (e & h' & H). vm_compute in H. discriminate.
Qed.

(** C10. [merge] with matching dimensions writes to the row arrays of the
    receiver and to nothing else: every object of the heap, so the
    receiver with its [_N], seed, [_columns] and [_rows] and the argument
    with its [_N], is as before, and so is every array that is not a row of
    the receiver, in particular every cell of the argument. *)
Theorem merge_modifies_only_receiver_matrix this sketch s o h :
  sketches h !! this = Some s →
  sketches h !! sketch = Some o →
  wf_sketch h s → wf_sketch h o →
  separate s o →
  _columns s = _columns o → _rows s = _rows o →
  ∃ h',
    merge this sketch h = (Ok tt, h')
    ∧ sketches h' = sketches h
    ∧ sketches h' !! this = Some s
    ∧ sketches h' !! sketch = Some o
    ∧ (∀ r, r ∉ _matrix s → arrays h' !! r = arrays h !! r)
    ∧ (∀ i j, cell h' o i j = cell h o i j).
Proof.
  intros Hs Ho Hwfs Hwfo Hsep Hc Hr.
  pose proof (separate_spec _ _ Hsep) as Hdisj.
  destruct (merge_effect this sketch s o h Hs Ho Hwfs Hwfo Hc Hr Hdisj)
    as (h' & Hrun & Hsk & _ & Hout & _ & _).
  exists h'. repeat split; try congruence; try done.
  intros i j. apply cell_frame. intros r Hel. apply Hout.
  intros Hel'. by apply (Hdisj r).
Qed.

(** C4. The code at [a = new CountMinSketch(1, 1); a.update('a', 3)]:
    [a.clone()] is a sketch with the cell 3 in a row array of its own and
    with the seed of [a], but its [_N] is 0 where [a._N] is 3. *)
Theorem clone_does_not_copy_N :
  ∃ copy h',
    clone 0%nat heap_1x1_N3 = (Ok copy, h')
    ∧ get_N 0%nat h' = (Ok 3, h')
    ∧ get_N copy h' = (Ok 0, h')
    ∧ get_seed copy h' = get_seed 0%nat h'
    ∧ arrays h' = [[Num 3]; [Num 3]].
Proof. eexists _, _. by vm_compute. Qed.

(** C8. [import] throws its error, and leaves the heap as it is, exactly
    when the type tag is not "CountMinSketch" or one of [_matrix], [_seed],
    [_N], [_rows], [_columns] is missing; on every other payload it returns
    a new sketch that holds the five values of the payload. *)
Theorem import_fails_exactly_on_malformed_payload json h :
  if decide (well_formed_payload json) then
    ∃ this h' s,
      import json h = (Ok this, h')
      ∧ sketches h' !! this = Some s
      ∧ JSON._matrix json = Some (_matrix s)
      ∧ JSON._seed json = Some (_seed s)
      ∧ JSON._N json = Some (_N s)
      ∧ JSON._rows json = Some (_rows s)
      ∧ JSON._columns json = Some (_columns s)
  else import json h = (Throw FormatError, h).
Proof.
  destruct (decide (well_formed_payload json)) as [Hwf | Hnwf].
  - destruct json as [ty m sd n r c].
    destruct Hwf as (Hty & [m' ?] & [sd' ?] & [n' ?] & [r' ?] & [c' ?]).
    simpl in *. subst. rewrite import_effect.
    eexists _, _, _. split; [reflexivity |]. split.
    { simpl. apply list_lookup_middle. done. }
    simpl. repeat split.
  - unfold import. rewrite import_guard.
    by rewrite bool_decide_eq_true_2.
Qed.

(** C9. The [seed] argument of the constructor has no effect: with any
    seed the call does what it does without one, and the new sketch has the
    default seed. *)
Theorem constructor_ignores_seed w d seed h :
  new_CountMinSketch w d (Some seed) h = new_CountMinSketch w d None h
  ∧ ∃ this h' s,
      new_CountMinSketch w d (Some seed) h = (Ok this, h')
      ∧ sketches h' !! this = Some s
      ∧ _seed s = getDefaultSeed.
Proof.
  split; [done |]. rewrite new_CountMinSketch_effect.
  eexists _, _, _. split; [done |]. split.
  - simpl. by apply list_lookup_middle.
  - done.
Qed.

(** * The theorems at concrete inputs *)

Lemma count_never_underestimates_witness :
  ∃ h' z,
    updates sample_indices 0%nat alice_bob heap_4x2 = (Ok tt, h')
    ∧ count sample_indices 0%nat "alice" h' = (Ok (Num z), h')
    ∧ true_count "alice" alice_bob ≤ z.
Proof.
  apply (count_never_underestimates sample_indices sample_indices_spec
           0%nat sketch_4x2 alice_bob "alice" heap_4x2).
  - reflexivity.
  - apply wf_sketchb_true. reflexivity.
  - apply nonneg_cellsb_true. reflexivity.
  - simpl. lia.
  - repeat constructor; simpl; lia.
Defined.

Lemma update_adds_count_to_one_cell_per_row_witness :
  ∃ indexes h',
    sample_indices "alice" 4 2 getDefaultSeed = Some indexes
    ∧ update sample_indices 0%nat "alice" None heap_4x2 = (Ok tt, h')
    ∧ sketches h' !! 0%nat = Some (with_N sketch_4x2 1)
    ∧ (∀ i, (i < 2)%nat →
         ∃ hi, indexes !! i = Some hi ∧ (hi < 4)%nat
           ∧ ∀ j, (j < 4)%nat →
               ∃ z, cell heap_4x2 sketch_4x2 i j = Num z
                 ∧ cell h' sketch_4x2 i j
                   = Num (if decide (j = hi) then z + 1 else z)).
Proof.
  apply (update_adds_count_to_one_cell_per_row sample_indices
           sample_indices_spec 0%nat sketch_4x2 "alice" None heap_4x2).
  - reflexivity.
  - apply wf_sketchb_true. reflexivity.
  - simpl. lia.
Defined.

Lemma update_never_decreases_count_witness :
  ∃ h' before after,
    count sample_indices 0%nat "alice" heap_4x2 = (Ok before, heap_4x2)
    ∧ update sample_indices 0%nat "bob" None heap_4x2 = (Ok tt, h')
    ∧ count sample_indices 0%nat "alice" h' = (Ok after, h')
    ∧ number_le before after.
Proof.
  apply (update_never_decreases_count sample_indices sample_indices_spec
           0%nat sketch_4x2 "bob" None "alice" heap_4x2).
  - reflexivity.
  - apply wf_sketchb_true. reflexivity.
  - simpl. lia.
  - simpl. lia.
Defined.

Lemma export_import_round_trip_witness :
  ∃ json h1 copy h2 s',
    saveAsJSON 0%nat heap_1x1_N3 = (Ok json, h1)
    ∧ fromJSON json h1 = (Ok copy, h2)
    ∧ sketches h2 !! 0%nat = Some sketch_1x1_N3
    ∧ sketches h2 !! copy = Some s'
    ∧ _seed s' = _seed sketch_1x1_N3
    ∧ _N s' = _N sketch_1x1_N3
    ∧ ∀ x, count sample_indices copy x h2 = count sample_indices 0%nat x h2.
Proof.
  apply (export_import_round_trip sample_indices 0%nat sketch_1x1_N3
           heap_1x1_N3).
  - reflexivity.
  - apply wf_live, wf_sketchb_true. reflexivity.
Defined.

Lemma merge_sums_exactly_when_dimensions_match_witness :
  (∃ h',
     merge 0%nat 1%nat heap_three = (Ok tt, h')
     ∧ ∀ i j, (i < 1)%nat → (j < 2)%nat →
         ∃ z1 z2, cell heap_three sketch_c i j = Num z1
                  ∧ cell heap_three sketch_d i j = Num z2
                  ∧ cell h' sketch_c i j = Num (z1 + z2))
  ∧ (∃ e, IncompatibleShape e
          ∧ merge 0%nat 2%nat heap_three = (Throw e, heap_three)).
Proof.
  split.
  - apply (merge_sums_exactly_when_dimensions_match 0%nat 1%nat
             sketch_c sketch_d heap_three).
    + reflexivity.
    + reflexivity.
    + apply wf_sketchb_true. reflexivity.
    + apply wf_sketchb_true. reflexivity.
    + unfold separate. simpl. repeat constructor.
      intros H. apply list_elem_of_singleton in H. discriminate.
  - apply (merge_sums_exactly_when_dimensions_match 0%nat 2%nat
             sketch_c sketch_e heap_three).
    + reflexivity.
    + reflexivity.
    + apply wf_sketchb_true. reflexivity.
    + apply wf_sketchb_true. reflexivity.
    + unfold separate. simpl. repeat constructor.
      intros H. apply list_elem_of_singleton in H. discriminate.
Defined.

Lemma merge_modifies_only_receiver_matrix_witness :
  ∃ h',
    merge 0%nat 1%nat heap_three = (Ok tt, h')
    ∧ sketches h' = sketches heap_three
    ∧ sketches h' !! 0%nat = Some sketch_c
    ∧ sketches h' !! 1%nat = Some sketch_d
    ∧ (∀ r, r ∉ _matrix sketch_c → arrays h' !! r = arrays heap_three !! r)
    ∧ (∀ i j, cell h' sketch_d i j = cell heap_three sketch_d i j).
Proof.
  apply (merge_modifies_only_receiver_matrix 0%nat 1%nat
           sketch_c sketch_d heap_three).
  - reflexivity.
  - reflexivity.
  - apply wf_sketchb_true. reflexivity.
  - apply wf_sketchb_true. reflexivity.
  - unfold separate. simpl. repeat constructor.
    intros H. apply list_elem_of_singleton in H. discriminate.
  - reflexivity.
  - reflexivity.
Defined.


(** * Further properties of the class *)

(** ** Vocabulary *)

(** The weight that a stream adds to the cell [M[i][j]] of a sketch of [w]
    columns and [d] rows with the seed [seed]: the weights of the elements
    whose index in row [i] is [j]. *)
Fixpoint weight_at (gdi : string → nat → nat → Z → option (list nat))
    (w d : nat) (seed : Z) (i j : nat) (stream : list (string * Z)) : Z :=
  match stream with
  | [] => 0
  | (element, c) :: rest =>
      (if decide ((gdi element w d seed ≫= λ indexes, indexes !! i) = Some j)
       then c else 0)
      + weight_at gdi w d seed i j rest
  end.

(** The value of a cell as an integer, and the total of a row. *)
Definition number_value (v : number) : Z :=
  match v with Num z => z | _ => 0 end.

Definition row_total (a : list number) : Z :=
  foldr (λ v acc, number_value v + acc) 0 a.

(** Every row of the matrix adds up to [n]. *)
Definition rows_sum_to (h : Heap) (s : CountMinSketch) (n : Z) : Prop :=
  ∀ r a, r ∈ _matrix s → arrays h !! r = Some a → row_total a = n.

Definition rows_sum_tob (h : Heap) (s : CountMinSketch) (n : Z) : bool :=
  forallb (λ r,
    match arrays h !! r with
    | Some a => bool_decide (row_total a = n)
    | None => true
    end) (_matrix s).

(** Two sketches of [w] columns and [d] rows are created, the first is fed
    the stream [A], the second the stream [B], and the second is merged
    into the first. *)
Definition merge_of_streams (gdi : string → nat → nat → Z → option (list nat))
    (w d : nat) (A B : list (string * Z)) : M (ref * ref) :=
  let* a := new_CountMinSketch (Some w) (Some d) None in
  let* b := new_CountMinSketch (Some w) (Some d) None in
  updates gdi a A >>
  updates gdi b B >>
  merge a b >>
  ret (a, b).

(** More concrete inputs: a sketch with more rows than columns, as
    [new CountMinSketch(1, 2)] makes it; a stream in another order; the
    payload of the sketch of one row and one column. *)
Definition sketch_1x2 : CountMinSketch :=
  mkCountMinSketch getDefaultSeed 1 2 [0%nat; 1%nat] 0.

Definition heap_1x2 : Heap :=
  mkHeap [sketch_1x2] [[Num 0]; [Num 0]].

Definition bob_alice : list (string * Z) :=
  [("bob", 1); ("alice", 1); ("alice", 1)].

Definition payload_1x1 : JSON.t :=
  JSON.mk (Some "CountMinSketch") (Some [0%nat]) (Some getDefaultSeed)
    (Some 3) (Some 1%nat) (Some 1%nat).

(** ** Lemmas *)

Lemma rows_sum_tob_true h s n : rows_sum_tob h s n = true → rows_sum_to h s n.
Proof.
  unfold rows_sum_tob. intros Hall r a Hel Ha.
  rewrite forallb_forall in Hall. apply list_elem_of_In in Hel.
  specialize (Hall r Hel). rewrite Ha in Hall.
  by apply bool_decide_eq_true in Hall.
Qed.

Lemma with_N_same s : with_N s (_N s) = s.
Proof. by destruct s. Qed.

Lemma weight_at_app gdi w d seed i j s1 s2 :
  weight_at gdi w d seed i j (s1 ++ s2)
  = weight_at gdi w d seed i j s1 + weight_at gdi w d seed i j s2.
Proof.
  induction s1 as [|[e c] s1 IH]; simpl; [lia |]. rewrite IH. lia.
Qed.

Lemma weight_at_Permutation gdi w d seed i j s1 s2 :
  s1 ≡ₚ s2 → weight_at gdi w d seed i j s1 = weight_at gdi w d seed i j s2.
Proof.
  induction 1 as [| [e c] ? ? _ IH | [e1 c1] [e2 c2] ? | ? ? ? _ IH1 _ IH2];
    simpl; lia.
Qed.

Lemma total_weight_Permutation s1 s2 :
  s1 ≡ₚ s2 → total_weight s1 = total_weight s2.
Proof.
  induction 1 as [| [e c] ? ? _ IH | [e1 c1] [e2 c2] ? | ? ? ? _ IH1 _ IH2];
    simpl; lia.
Qed.

Lemma cell_row h s i j r a z :
  _matrix s !! i = Some r → arrays h !! r = Some a →
  cell h s i j = Num z → a !! j = Some (Num z).
Proof.
  intros Hr Ha Hc. apply cell_Num_inv in Hc as (r' & a' & Hr' & Ha' & Hz).
  congruence.
Qed.

Lemma row_total_insert a : ∀ j v v',
  a !! j = Some v →
  row_total (<[j:=v']> a) = row_total a - number_value v + number_value v'.
Proof.
  induction a as [|x a IH]; intros j v v' Hj; [done |].
  destruct j as [|j]; simpl in *.
  - injection Hj as ->. unfold row_total. simpl. lia.
  - unfold row_total in *. simpl. rewrite (IH j v v' Hj). lia.
Qed.

Lemma elem_le_row_total a : ∀ j v,
  (∀ k x, a !! k = Some x → 0 ≤ number_value x) →
  a !! j = Some v → number_value v ≤ row_total a.
Proof.
  induction a as [|x a IH]; intros j v Hpos Hj; [done |].
  assert (0 ≤ row_total a).
  { clear IH Hj. induction a as [|y a IHa]; [done |].
    unfold row_total in *. simpl.
    assert (0 ≤ number_value y) by (apply (Hpos 1%nat); done).
    assert (0 ≤ foldr (λ v acc, number_value v + acc) 0 a).
    { apply IHa. intros [|k] x' Hk; [apply (Hpos 0%nat x'); done |].
      apply (Hpos (S (S k)) x'). done. }
    lia. }
  assert (0 ≤ number_value x) by (apply (Hpos 0%nat); done).
  destruct j as [|j]; simpl in *.
  - injection Hj as ->. unfold row_total in *. simpl. lia.
  - assert (number_value v ≤ row_total a).
    { apply (IH j); [| done]. intros k x' Hk. by apply (Hpos (S k)). }
    unfold row_total in *. simpl. lia.
Qed.

(** A property of the heap that every iteration keeps, whether it returns
    or throws, holds after the loop, however it ends. *)
Lemma for_loop_preserves {A} (P : Heap → Prop) (body : nat → A → M A) n :
  ∀ i acc h,
    (∀ k a h0, P h0 → P (body k a h0).2) →
    P h → P (for_loop i n body acc h).2.
Proof.
  induction n as [|n IH]; intros i acc h Hbody Hh; simpl; [done |].
  unfold bind. pose proof (Hbody i acc h Hh) as H1.
  destruct (body i acc h) as [[a|e] h1]; simpl in *; [| done].
  by apply IH.
Qed.

(** Two sketches with the same sizes, seed and contents of rows give the
    same estimates. *)
Lemma count_same_rows gdi this other s o x h h' :
  sketches h !! this = Some s →
  sketches h' !! other = Some o →
  _columns o = _columns s → _rows o = _rows s → _seed o = _seed s →
  (∀ k, row_of h' (_matrix o) k = row_of h (_matrix s) k) →
  (count gdi other x h').1 = (count gdi this x h).1.
Proof.
  intros Hs Ho Hc Hr Hseed Hrows.
  rewrite (count_pure gdi this s x h Hs), (count_pure gdi other o x h' Ho).
  simpl. rewrite Hc, Hr, Hseed.
  destruct (gdi x _ _ _) as [indexes|]; [| done].
  apply estimate_ext. intros k _. apply Hrows.
Qed.

Lemma count_same_rows_here gdi this other s o x h :
  sketches h !! this = Some s →
  sketches h !! other = Some o →
  _columns o = _columns s → _rows o = _rows s → _seed o = _seed s →
  (∀ k, row_of h (_matrix o) k = row_of h (_matrix s) k) →
  count gdi other x h = count gdi this x h.
Proof.
  intros Hs Ho Hc Hr Hseed Hrows.
  pose proof (count_same_rows gdi this other s o x h h Hs Ho Hc Hr Hseed Hrows)
    as Heq.
  rewrite (count_pure gdi this s x h Hs) in *.
  rewrite (count_pure gdi other o x h Ho) in *.
  simpl in Heq. by rewrite Heq.
Qed.

(** The rows of a clone: new arrays with the contents of the rows of the
    original. *)
Lemma clone_effect_rows this s h :
  sketches h !! this = Some s →
  wf_sketch h s →
  ∃ h',
    clone this h = (Ok (length (sketches h)), h')
    ∧ sketches h'
      = sketches h
        ++ [with_seed (fresh_sketch h (_columns s) (_rows s)) (_seed s)]
    ∧ (∀ r, (r < length (arrays h))%nat → arrays h' !! r = arrays h !! r)
    ∧ (∀ k, row_of h' (seq (length (arrays h)) (_rows s)) k
            = row_of h (_matrix s) k).
Proof.
  intros Hs Hwf. set (f := fresh_sketch h (_columns s) (_rows s)).
  set (h1 := mkHeap (sketches h ++ [f])
               (arrays h ++ replicate (_rows s) (replicate (_columns s) (Num 0)))).
  assert (Hlt : ∀ r, r ∈ _matrix s → (r < length (arrays h))%nat).
  { intros r Hel. destruct (wf_rows _ _ Hwf r Hel) as (a & Ha & _).
    by eapply lookup_lt_Some. }
  assert (Hframe : ∀ r, r ∈ _matrix s → arrays h1 !! r = arrays h !! r).
  { intros r Hel. simpl. apply lookup_app_l. by apply Hlt. }
  assert (Hs1 : sketches h1 !! this = Some s) by (by apply lookup_app_l_Some).
  assert (Hf1 : sketches h1 !! length (sketches h) = Some f)
    by (by apply list_lookup_middle).
  destruct (merge_effect (length (sketches h)) this f s h1 Hf1 Hs1)
    as (h2 & Hrun & Hsk & Hl2 & Hout & Hwf2 & Hsum); try done.
  { apply fresh_sketch_wf. }
  { by apply (wf_frame h). }
  { intros r Hel Hel'. apply elem_of_seq in Hel. specialize (Hlt r Hel'). lia. }
  destruct (clone_effect this s h Hs Hwf) as (h' & Hclone & Hsk' & _ & _).
  assert (Harr : arrays h' = arrays h2).
  { unfold clone in Hclone.
    rewrite (bind_ok _ _ _ _ _ (get_sketch_ok _ _ _ Hs)) in Hclone.
    rewrite (bind_ok _ _ _ _ _ (new_CountMinSketch_effect _ _ _ _)) in Hclone.
    simpl default in Hclone. fold f in Hclone. fold h1 in Hclone.
    rewrite (bind_ok _ _ _ _ _ Hrun) in Hclone.
    rewrite (bind_ok _ _ h2 (_seed s) h2) in Hclone.
    2:{ unfold get_seed. erewrite (bind_ok (get_sketch this));
          [done | apply get_sketch_ok; by rewrite Hsk]. }
    destruct h2 as [sk2 ar2]. simpl in Hsk. subst sk2.
    rewrite (bind_ok _ _ _ tt
               (mkHeap (sketches h ++ [with_seed f (_seed s)]) ar2)) in Hclone.
    2:{ unfold set_seed. rewrite (bind_ok _ _ _ _ _ (get_sketch_last _ _ _)).
        by rewrite set_sketch_last. }
    unfold ret in Hclone. injection Hclone as <-. done. }
  exists h'. split; [done |]. split; [done |].
  assert (Hold : ∀ r, (r < length (arrays h))%nat →
                      arrays h' !! r = arrays h !! r).
  { intros r Hr. rewrite Harr, Hout.
    - simpl. by apply lookup_app_l.
    - simpl. intros Hel. apply elem_of_seq in Hel. lia. }
  split; [done |].
  intros k. unfold row_of.
  destruct (decide (k < _rows s)%nat) as [Hk | Hk].
  - rewrite lookup_seq_lt by done. simpl.
    destruct (wf_row h s k Hwf Hk) as (r & a & Hr & Ha & Hla & Hia).
    rewrite Hr. simpl. rewrite Ha.
    destruct (wf_row h2 f k Hwf2 Hk) as (r' & a' & Hr' & Ha' & Hla' & _).
    simpl in Hr'. rewrite lookup_seq_lt in Hr' by done. injection Hr' as <-.
    rewrite Harr, Ha'. f_equal. simpl in Hla'.
    apply list_eq. intros j.
    destruct (decide (j < _columns s)%nat) as [Hj | Hj].
    + destruct (lookup_lt_is_Some_2 a j) as [v Hv]; [lia |].
      rewrite Forall_lookup in Hia. specialize (Hia _ _ Hv).
      destruct v as [z| |]; try done. rewrite Hv.
      assert (Hz : cell h1 s k j = Num z).
      { rewrite (cell_frame h h1 s k j Hframe). unfold cell.
        rewrite Hr, Ha. simpl. by rewrite Hv. }
      pose proof (Hsum k j 0 z (fresh_sketch_cell h _ _ k j Hk Hj) Hz) as Hc.
      apply (cell_row h2 f k j (length (arrays h) + k)%nat a') in Hc.
      * by rewrite Hc.
      * simpl. by apply lookup_seq_lt.
      * done.
    + rewrite !lookup_ge_None_2 by lia. done.
  - rewrite lookup_seq_ge by lia.
    rewrite (lookup_ge_None_2 (_matrix s)); [done |].
    rewrite (wf_length _ _ Hwf). lia.
Qed.


(** ** update, count, merge and clone, for any hash *)

Section MoreTheory.

Variable getDistinctIndices : string → nat → nat → Z → option (list nat).
Hypothesis getDistinctIndices_spec :
  distinct_indices_spec getDistinctIndices.


(** The heap after a stream of updates. *)
Lemma updates_effect this stream : ∀ s h,
  sketches h !! this = Some s →
  wf_sketch h s →
  (_rows s ≤ _columns s)%nat →
  ∃ h',
    updates getDistinctIndices this stream h = (Ok tt, h')
    ∧ sketches h' = <[this:=with_N s (_N s + total_weight stream)]> (sketches h)
    ∧ length (arrays h') = length (arrays h)
    ∧ (∀ r, r ∉ _matrix s → arrays h' !! r = arrays h !! r)
    ∧ wf_sketch h' s
    ∧ (∀ i j z, cell h s i j = Num z →
         cell h' s i j
         = Num (z + weight_at getDistinctIndices (_columns s) (_rows s)
                      (_seed s) i j stream)).
Proof.
  induction stream as [|[y c] rest IH]; intros s h Hs Hwf Hdw; simpl.
  - exists h. split; [done |]. split.
    { rewrite Z.add_0_r, with_N_same. symmetry. by apply list_insert_id. }
    repeat split; try done; try apply Hwf.
    intros i j z Hz. rewrite Hz. f_equal. lia.
  - destruct (getDistinctIndices_spec y (_columns s) (_rows s) (_seed s) Hdw)
      as (iy & Hy & Hly & _ & Hry).
    destruct (update_cells getDistinctIndices this s y (Some c) h iy
                Hs Hwf Hy Hly Hry)
      as (h1 & Hrun & Hsk & Hl1 & Hout1 & Hwf1 & Hcells).
    simpl in Hsk, Hcells.
    assert (Hs1 : sketches h1 !! this = Some (with_N s (_N s + c))).
    { rewrite Hsk. apply list_lookup_insert_eq. by eapply lookup_lt_Some. }
    destruct (IH (with_N s (_N s + c)) h1 Hs1 (wf_with_N _ _ _ Hwf1) Hdw)
      as (h' & Hrun' & Hsk' & Hl' & Hout' & Hwf' & Hcells').
    simpl in Hsk', Hout', Hcells'.
    exists h'. split; [by rewrite (bind_ok _ _ _ _ _ Hrun) |].
    split.
    { rewrite Hsk', Hsk, list_insert_insert_eq. f_equal.
      unfold with_N. simpl. f_equal. lia. }
    split; [congruence |].
    split; [intros r Hr; rewrite Hout' by done; by apply Hout1 |].
    split; [destruct Hwf' as [? ? ?]; by split |].
    intros i j z Hz.
    assert (Hiy : ∃ jy, iy !! i = Some jy).
    { apply lookup_lt_is_Some_2. rewrite Hly.
      apply cell_Num_inv in Hz as (r & a & Hr & _).
      rewrite <- (wf_length _ _ Hwf). by eapply lookup_lt_Some. }
    destruct Hiy as [jy Hjy].
    pose proof (Hcells i j jy z Hjy Hz) as Hz1.
    change (cell h1 s i j) with (cell h1 (with_N s (_N s + c)) i j) in Hz1.
    pose proof (Hcells' i j _ Hz1) as Hz2.
    change (cell h' (with_N s (_N s + c)) i j) with (cell h' s i j) in Hz2.
    rewrite Hz2. f_equal.
    rewrite Hy. simpl. rewrite Hjy.
    destruct (decide (j = jy)) as [-> | Hne].
    + rewrite decide_True by done. lia.
    + rewrite decide_False by congruence. lia.
Qed.

(** What [update] may change, whether it returns or throws. *)
Lemma update_frame this s x c h :
  sketches h !! this = Some s →
  sketches (update getDistinctIndices this x c h).2
  = <[this:=with_N s (_N s + default 1 c)]> (sketches h)
  ∧ ∀ r, r ∉ _matrix s →
      arrays (update getDistinctIndices this x c h).2 !! r = arrays h !! r.
Proof.
  intros Hs. unfold update.
  rewrite (bind_ok _ _ _ _ _ (get_sketch_ok _ _ _ Hs)).
  set (s' := with_N s (_N s + default 1 c)).
  set (h1 := mkHeap (<[this:=s']> (sketches h)) (arrays h)).
  rewrite (bind_ok _ _ h tt h1) by done.
  rewrite (bind_ok _ _ h1 s' h1).
  2:{ apply get_sketch_ok. simpl. apply list_lookup_insert_eq.
      by eapply lookup_lt_Some. }
  unfold getDistinctIndices_call. simpl.
  destruct (getDistinctIndices x _ _ _) as [indexes|].
  2:{ by rewrite (bind_throw _ _ h1 ParameterError h1). }
  rewrite (bind_ok _ _ h1 indexes h1) by done.
  apply (for_loop_preserves
    (λ h', sketches h' = sketches h1
           ∧ ∀ r, r ∉ _matrix s → arrays h' !! r = arrays h1 !! r)).
  2:{ done. }
  intros k [] h0 [Hsk Hout]. unfold bind, matrix_row.
  destruct (_matrix s !! k) as [r|] eqn:Hr; simpl; [| done].
  unfold get_array. destruct (arrays h0 !! r) as [a|]; simpl; [| done].
  split; [done |]. intros r' Hr'.
  rewrite list_lookup_insert_ne; [by apply Hout |].
  intros ->. apply Hr'. by eapply list_elem_of_lookup_2.
Qed.

(** Two streams that add the same weights to every cell and have the same
    total weight lead to the same heap. *)
Lemma updates_heap_determined this s stream1 stream2 h :
  sketches h !! this = Some s →
  wf_sketch h s →
  (_rows s ≤ _columns s)%nat →
  total_weight stream1 = total_weight stream2 →
  (∀ i j, weight_at getDistinctIndices (_columns s) (_rows s) (_seed s) i j stream1
          = weight_at getDistinctIndices (_columns s) (_rows s) (_seed s) i j stream2) →
  ∃ h',
    updates getDistinctIndices this stream1 h = (Ok tt, h')
    ∧ updates getDistinctIndices this stream2 h = (Ok tt, h').
Proof.
  intros Hs Hwf Hdw Htot Hw.
  destruct (updates_effect this stream1 s h Hs Hwf Hdw)
    as (h1 & Hrun1 & Hsk1 & Hl1 & Hout1 & Hwf1 & Hc1).
  destruct (updates_effect this stream2 s h Hs Hwf Hdw)
    as (h2 & Hrun2 & Hsk2 & Hl2 & Hout2 & Hwf2 & Hc2).
  exists h1. split; [done |]. rewrite Hrun2. f_equal.
  destruct h1 as [sk1 ar1], h2 as [sk2 ar2]. simpl in *.
  f_equal; [congruence |].
  apply list_eq. intros r.
  destruct (decide (r ∈ _matrix s)) as [Hel | Hnel].
  - pose proof Hel as Hel'. apply list_elem_of_lookup in Hel' as [i Hi].
    destruct (wf_rows _ _ Hwf r Hel) as (a & Ha & Hla & Hia).
    destruct (wf_rows _ _ Hwf1 r Hel) as (a1 & Ha1 & Hla1 & _).
    destruct (wf_rows _ _ Hwf2 r Hel) as (a2 & Ha2 & Hla2 & _).
    simpl in Ha1, Ha2. rewrite Ha1, Ha2. f_equal.
    apply list_eq. intros j.
    destruct (decide (j < _columns s)%nat) as [Hj | Hj].
    + destruct (lookup_lt_is_Some_2 a j) as [v Hv]; [lia |].
      rewrite Forall_lookup in Hia. specialize (Hia _ _ Hv).
      destruct v as [z| |]; try done.
      assert (Hz' : cell h s i j = Num z).
      { unfold cell. rewrite Hi, Ha. simpl. by rewrite Hv. }
      rewrite (cell_row (mkHeap sk1 ar1) s i j r a1 _ Hi Ha1 (Hc1 i j z Hz')).
      rewrite (cell_row (mkHeap sk2 ar2) s i j r a2 _ Hi Ha2 (Hc2 i j z Hz')).
      by rewrite Hw.
    + rewrite !lookup_ge_None_2 by lia. done.
  - rewrite Hout1, Hout2 by done. done.
Qed.

(** One update adds its weight to the total of every row. *)
Lemma update_row_totals this s x c h n :
  sketches h !! this = Some s →
  wf_sketch h s →
  (_rows s ≤ _columns s)%nat →
  rows_sum_to h s n →
  ∃ h',
    update getDistinctIndices this x c h = (Ok tt, h')
    ∧ sketches h' !! this = Some (with_N s (_N s + default 1 c))
    ∧ wf_sketch h' s
    ∧ rows_sum_to h' s (n + default 1 c).
Proof.
  intros Hs Hwf Hdw Hsum.
  destruct (getDistinctIndices_spec x (_columns s) (_rows s) (_seed s) Hdw)
    as (ix & Hx & Hlx & _ & Hrx).
  destruct (update_cells getDistinctIndices this s x c h ix Hs Hwf Hx Hlx Hrx)
    as (h' & Hrun & Hsk & _ & _ & Hwf' & _).
  destruct (update_effect getDistinctIndices this s x c h ix Hs Hwf Hx)
    as (h'' & Hrun' & _ & _ & _ & Hin).
  assert (h'' = h') by congruence. subst h''.
  exists h'. split; [done |]. split.
  { rewrite Hsk. apply list_lookup_insert_eq. by eapply lookup_lt_Some. }
  split; [done |].
  intros r a' Hel Ha'. pose proof Hel as Hel'.
  apply list_elem_of_lookup in Hel' as [i Hi].
  destruct (wf_rows _ _ Hwf r Hel) as (a & Ha & Hla & Hia).
  destruct (lookup_lt_is_Some_2 ix i) as [ji Hji].
  { rewrite Hlx, <- (wf_length _ _ Hwf). by eapply lookup_lt_Some. }
  rewrite Forall_lookup in Hrx. pose proof (Hrx _ _ Hji) as Hjr. simpl in Hjr.
  destruct (lookup_lt_is_Some_2 a ji) as [v Hv]; [lia |].
  rewrite Forall_lookup in Hia. pose proof (Hia _ _ Hv) as Hvi.
  destruct v as [z| |]; try done.
  rewrite (Hin i r a Hi Ha), Hji in Ha'. injection Ha' as <-.
  unfold array_set, array_get. rewrite Hv. simpl.
  rewrite decide_True by lia.
  rewrite (row_total_insert a ji (Num z) _ Hv). simpl.
  rewrite (Hsum r a Hel Ha). lia.
Qed.

(** ** Properties *)

(** X1. A sketch just made by [new CountMinSketch(w, d)] with [d <= w]
    estimates 0 for every element; with no row at all ([d = 0]) [count]
    returns [Infinity], the start value of its minimum. *)
Theorem fresh_sketch_counts_zero w d seed x h :
  (d ≤ w)%nat →
  ∃ this h',
    new_CountMinSketch (Some w) (Some d) seed h = (Ok this, h')
    ∧ count getDistinctIndices this x h'
      = (Ok (if decide (d = 0%nat) then Infinity else Num 0), h').
Proof.
  intros Hdw. rewrite new_CountMinSketch_effect. simpl.
  eexists _, _. split; [reflexivity |].
  set (h' := mkHeap _ _). set (s := fresh_sketch h w d).
  assert (Hs : sketches h' !! length (sketches h) = Some s)
    by (by apply list_lookup_middle).
  destruct (getDistinctIndices_spec x w d getDefaultSeed Hdw)
    as (ix & Hx & Hlx & _ & Hrx).
  destruct (count_effect getDistinctIndices (length (sketches h)) s x h' ix Hs
              (fresh_sketch_wf h w d) Hx Hlx Hrx) as (v & Hcount & Hest).
  rewrite Hcount. f_equal. f_equal. simpl in Hest.
  destruct v as [z| |]; simpl in Hest; [| by rewrite decide_True | done].
  destruct Hest as [(i & ji & Hi & Hji & Hc) _].
  rewrite decide_False by lia. f_equal.
  unfold h', s in Hc. rewrite fresh_sketch_cell in Hc; [congruence | done |].
  rewrite Forall_lookup in Hrx. by apply (Hrx _ _ Hji).
Qed.

(** X2. On a well-formed sketch with at least one row, [count(x)] returns
    the smallest of the cells [M[i][indexes[i]]]: the value of one of them,
    and at most the value of each of them. *)
Theorem count_is_minimum_over_rows this s x h :
  sketches h !! this = Some s →
  wf_sketch h s →
  (1 ≤ _rows s ≤ _columns s)%nat →
  ∃ indexes z,
    getDistinctIndices x (_columns s) (_rows s) (_seed s) = Some indexes
    ∧ count getDistinctIndices this x h = (Ok (Num z), h)
    ∧ (∃ i hi, (i < _rows s)%nat ∧ indexes !! i = Some hi
               ∧ cell h s i hi = Num z)
    ∧ (∀ i hi zi, (i < _rows s)%nat → indexes !! i = Some hi →
         cell h s i hi = Num zi → z ≤ zi).
Proof.
  intros Hs Hwf [Hd Hdw].
  destruct (getDistinctIndices_spec x (_columns s) (_rows s) (_seed s) Hdw)
    as (ix & Hx & Hlx & _ & Hrx).
  destruct (count_effect getDistinctIndices this s x h ix Hs Hwf Hx Hlx Hrx)
    as (v & Hcount & Hest).
  destruct v as [z| |]; simpl in Hest; [| lia | done].
  exists ix, z. by destruct Hest.
Qed.

(** X3. After a stream of updates, with weights of any sign, [_N] has grown
    by the total weight of the stream and every cell [M[i][j]] by the
    weights of the elements whose index in row [i] is [j]. *)
Theorem updates_add_weights_cellwise this s stream h :
  sketches h !! this = Some s →
  wf_sketch h s →
  (_rows s ≤ _columns s)%nat →
  ∃ h',
    updates getDistinctIndices this stream h = (Ok tt, h')
    ∧ sketches h' !! this = Some (with_N s (_N s + total_weight stream))
    ∧ (∀ i j, (i < _rows s)%nat → (j < _columns s)%nat →
         ∃ z, cell h s i j = Num z
           ∧ cell h' s i j
             = Num (z + weight_at getDistinctIndices (_columns s) (_rows s)
                          (_seed s) i j stream)).
Proof.
  intros Hs Hwf Hdw.
  destruct (updates_effect this stream s h Hs Hwf Hdw)
    as (h' & Hrun & Hsk & _ & _ & _ & Hcells).
  exists h'. split; [done |]. split.
  { rewrite Hsk. apply list_lookup_insert_eq. by eapply lookup_lt_Some. }
  intros i j Hi Hj. destruct (wf_cell h s i j Hwf Hi Hj) as [z Hz].
  exists z. split; [done |]. by apply Hcells.
Qed.

(** X4. When every row of the matrix adds up to [_N] (as after the
    constructor, where both are 0), it still does after any stream of
    updates, with weights of any sign. *)
Theorem updates_keep_row_totals this stream : ∀ s h,
  sketches h !! this = Some s →
  wf_sketch h s →
  (_rows s ≤ _columns s)%nat →
  rows_sum_to h s (_N s) →
  ∃ h' s',
    updates getDistinctIndices this stream h = (Ok tt, h')
    ∧ sketches h' !! this = Some s'
    ∧ _N s' = _N s + total_weight stream
    ∧ rows_sum_to h' s' (_N s').
Proof.
  induction stream as [|[y c] rest IH]; intros s h Hs Hwf Hdw Hsum; simpl.
  - exists h, s. repeat split; try done. lia.
  - destruct (update_row_totals this s y (Some c) h (_N s) Hs Hwf Hdw Hsum)
      as (h1 & Hrun & Hs1 & Hwf1 & Hsum1).
    simpl in Hs1, Hsum1.
    destruct (IH (with_N s (_N s + c)) h1 Hs1 (wf_with_N _ _ _ Hwf1) Hdw Hsum1)
      as (h' & s' & Hrun' & Hs' & HN & Hsum').
    exists h', s'. split; [by rewrite (bind_ok _ _ _ _ _ Hrun) |].
    split; [done |]. split; [| done]. rewrite HN. simpl. lia.
Qed.

(** X5. On a well-formed sketch with non-negative cells whose rows add up
    to [_N], the estimate of any element lies between 0 and [_N]. *)
Theorem count_at_most_N this s x h :
  sketches h !! this = Some s →
  wf_sketch h s →
  nonneg_cells h s →
  rows_sum_to h s (_N s) →
  (1 ≤ _rows s ≤ _columns s)%nat →
  ∃ z, count getDistinctIndices this x h = (Ok (Num z), h) ∧ 0 ≤ z ≤ _N s.
Proof.
  intros Hs Hwf Hnn Hsum [Hd Hdw].
  destruct (getDistinctIndices_spec x (_columns s) (_rows s) (_seed s) Hdw)
    as (ix & Hx & Hlx & _ & Hrx).
  destruct (count_effect getDistinctIndices this s x h ix Hs Hwf Hx Hlx Hrx)
    as (v & Hcount & Hest).
  destruct v as [z| |]; simpl in Hest; [| lia | done].
  exists z. split; [done |].
  destruct Hest as [(i & ji & Hi & Hji & Hc) _].
  split; [by apply (Hnn i ji) |].
  pose proof Hc as Hc'. apply cell_Num_inv in Hc' as (r & a & Hr & Ha & Hz).
  assert (Hel : r ∈ _matrix s) by (by eapply list_elem_of_lookup_2).
  rewrite <- (Hsum r a Hel Ha).
  apply (elem_le_row_total a ji (Num z)); [| done].
  intros k v Hk. destruct v as [zk| |]; simpl; try lia.
  apply (Hnn i k). unfold cell. rewrite Hr, Ha. simpl. by rewrite Hk.
Qed.

(** X6. The order of the updates does not matter: two streams that are
    permutations of each other lead to the same heap. *)
Theorem updates_order_irrelevant this s stream1 stream2 h :
  sketches h !! this = Some s →
  wf_sketch h s →
  (_rows s ≤ _columns s)%nat →
  stream1 ≡ₚ stream2 →
  ∃ h',
    updates getDistinctIndices this stream1 h = (Ok tt, h')
    ∧ updates getDistinctIndices this stream2 h = (Ok tt, h').
Proof.
  intros Hs Hwf Hdw Hperm.
  apply (updates_heap_determined this s); try done.
  - by apply total_weight_Permutation.
  - intros i j. by apply weight_at_Permutation.
Qed.

(** X7. [update(element, c)] followed by [update(element, -c)] gives back
    the heap as it was: every cell and [_N]. *)
Theorem update_undone_by_opposite_weight this s element c h :
  sketches h !! this = Some s →
  wf_sketch h s →
  (_rows s ≤ _columns s)%nat →
  ∃ h1,
    update getDistinctIndices this element (Some c) h = (Ok tt, h1)
    ∧ update getDistinctIndices this element (Some (- c)) h1 = (Ok tt, h).
Proof.
  intros Hs Hwf Hdw.
  destruct (updates_heap_determined this s
              [(element, c); (element, - c)] [] h Hs Hwf Hdw)
    as (h' & Hrun & Hnil).
  { simpl. lia. }
  { intros i j. simpl. destruct (decide _); lia. }
  change (updates getDistinctIndices this [] h) with (ret tt h) in Hnil.
  unfold ret in Hnil. injection Hnil as <-.
  simpl in Hrun. unfold bind in Hrun.
  destruct (update getDistinctIndices this element (Some c) h)
    as [[[]|e] h1] eqn:H1; [| done].
  exists h1. split; [done |].
  destruct (update getDistinctIndices this element (Some (- c)) h1)
    as [[[]|e] h2] eqn:H2; [| done].
  unfold ret in Hrun. congruence.
Qed.

(** X8. [update] adds the weight to [_N] before it asks for the indices:
    when the hash fails, the call throws with [_N] already increased and no
    cell changed. *)
Theorem update_failure_keeps_N_increment this s x c h :
  sketches h !! this = Some s →
  getDistinctIndices x (_columns s) (_rows s) (_seed s) = None →
  update getDistinctIndices this x c h
  = (Throw ParameterError,
     mkHeap (<[this:=with_N s (_N s + default 1 c)]> (sketches h)) (arrays h)).
Proof.
  intros Hs Hnone. unfold update.
  rewrite (bind_ok _ _ _ _ _ (get_sketch_ok _ _ _ Hs)).
  set (h1 := mkHeap _ (arrays h)).
  rewrite (bind_ok _ _ h tt h1) by done.
  rewrite (bind_ok _ _ h1 (with_N s (_N s + default 1 c)) h1).
  2:{ apply get_sketch_ok. simpl. apply list_lookup_insert_eq.
      by eapply lookup_lt_Some. }
  apply bind_throw. unfold getDistinctIndices_call. simpl. by rewrite Hnone.
Qed.

(** X9. Whether it returns or throws, [update] on one sketch leaves every
    other sketch object as it is, and the estimates of a sketch that shares
    no row with it are the same after as before. *)
Theorem update_leaves_other_sketches this other s o element c h :
  this ≠ other →
  sketches h !! this = Some s →
  sketches h !! other = Some o →
  separate o s →
  sketches (update getDistinctIndices this element c h).2 !! other = Some o
  ∧ ∀ x,
      (count getDistinctIndices other x
         (update getDistinctIndices this element c h).2).1
      = (count getDistinctIndices other x h).1.
Proof.
  intros Hne Hs Ho Hsep. pose proof (separate_spec _ _ Hsep) as Hdisj.
  destruct (update_frame this s element c h Hs) as [Hsk Hout].
  assert (Ho' : sketches (update getDistinctIndices this element c h).2
                !! other = Some o).
  { rewrite Hsk. by rewrite list_lookup_insert_ne. }
  split; [done |]. intros x.
  apply (count_same_rows _ other other o o); try done.
  intros k. unfold row_of. destruct (_matrix o !! k) as [r|] eqn:Hr; [| done].
  simpl. apply Hout. apply Hdisj. by eapply list_elem_of_lookup_2.
Qed.

(** X10. [count] never changes the heap, whatever it returns or throws. *)
Theorem count_leaves_heap this x h :
  (count getDistinctIndices this x h).2 = h.
Proof.
  destruct (sketches h !! this) as [s|] eqn:Hs.
  - by rewrite (count_pure getDistinctIndices this s x h Hs).
  - unfold count. erewrite bind_throw; [done |].
    unfold get_sketch. by rewrite Hs.
Qed.

(** X11. After [merge] of two sketches with the same sizes and the same
    seed, the estimate of an element is at least the sum of the estimates
    that the two sketches gave for it. *)
Theorem merge_count_superadditive this sketch s o x h :
  sketches h !! this = Some s →
  sketches h !! sketch = Some o →
  wf_sketch h s → wf_sketch h o →
  separate s o →
  _columns s = _columns o → _rows s = _rows o → _seed s = _seed o →
  (1 ≤ _rows s ≤ _columns s)%nat →
  ∃ za zb h' z,
    count getDistinctIndices this x h = (Ok (Num za), h)
    ∧ count getDistinctIndices sketch x h = (Ok (Num zb), h)
    ∧ merge this sketch h = (Ok tt, h')
    ∧ count getDistinctIndices this x h' = (Ok (Num z), h')
    ∧ za + zb ≤ z.
Proof.
  intros Hs Ho Hwfs Hwfo Hsep Hc Hr Hseed [Hd Hdw].
  pose proof (separate_spec _ _ Hsep) as Hdisj.
  destruct (getDistinctIndices_spec x (_columns s) (_rows s) (_seed s) Hdw)
    as (ix & Hx & Hlx & _ & Hrx).
  destruct (count_effect getDistinctIndices this s x h ix Hs Hwfs Hx Hlx Hrx)
    as (va & Hca & Hesta).
  destruct (count_effect getDistinctIndices sketch o x h ix Ho Hwfo)
    as (vb & Hcb & Hestb);
    [by rewrite <- Hc, <- Hr, <- Hseed | by rewrite <- Hr | by rewrite <- Hc |].
  destruct (merge_effect this sketch s o h Hs Ho Hwfs Hwfo Hc Hr Hdisj)
    as (h' & Hrun & Hsk & _ & _ & Hwf' & Hsum).
  assert (Hs' : sketches h' !! this = Some s) by congruence.
  destruct (count_effect getDistinctIndices this s x h' ix Hs' Hwf' Hx Hlx Hrx)
    as (v & Hcv & Hest).
  destruct va as [za| |]; simpl in Hesta; [| lia | done].
  destruct vb as [zb| |]; simpl in Hestb; [| lia | done].
  destruct v as [z| |]; simpl in Hest; [| lia | done].
  exists za, zb, h', z. repeat split; try done.
  destruct Hest as [(i & ji & Hi & Hji & Hcell) _].
  destruct Hesta as [_ Hmina]. destruct Hestb as [_ Hminb].
  assert (Hjr : (ji < _columns s)%nat).
  { rewrite Forall_lookup in Hrx. by apply (Hrx _ _ Hji). }
  destruct (wf_cell h s i ji Hwfs Hi Hjr) as [z1 Hz1].
  destruct (wf_cell h o i ji Hwfo) as [z2 Hz2]; [lia | lia |].
  rewrite (Hsum i ji z1 z2 Hz1 Hz2) in Hcell. injection Hcell as <-.
  assert (za ≤ z1) by (by apply (Hmina i ji)).
  assert (zb ≤ z2) by (apply (Hminb i ji); [lia | done | done]).
  lia.
Qed.

(** X12. Two new sketches of the same sizes are fed the streams [A] and
    [B] and the second is merged into the first: the matrix of the first is
    then, cell by cell, the matrix that the stream [A ++ B] gives a new
    sketch, while its [_N] is the total weight of [A] alone. *)
Theorem merge_of_streams_is_sketch_of_concatenation w d A B h :
  (d ≤ w)%nat →
  ∃ a b h' sa,
    merge_of_streams getDistinctIndices w d A B h = (Ok (a, b), h')
    ∧ sketches h' !! a = Some sa
    ∧ _N sa = total_weight A
    ∧ ∀ i j, (i < d)%nat → (j < w)%nat →
        cell h' sa i j
        = Num (weight_at getDistinctIndices w d getDefaultSeed i j (A ++ B)).
Proof.
  intros Hdw.
  set (R := replicate d (replicate w (Num 0))).
  set (fa := fresh_sketch h w d).
  set (h1 := mkHeap (sketches h ++ [fa]) (arrays h ++ R)).
  set (fb := fresh_sketch h1 w d).
  set (h2 := mkHeap (sketches h1 ++ [fb]) (arrays h1 ++ R)).
  set (a := length (sketches h)). set (b := length (sketches h1)).
  assert (Hab : a ≠ b).
  { unfold a, b, h1. simpl. rewrite length_app. simpl. lia. }
  assert (Hl1 : length (arrays h1) = (length (arrays h) + d)%nat).
  { unfold h1, R. simpl. by rewrite length_app, length_replicate. }
  assert (Hdisj : ∀ r, r ∈ _matrix fa → r ∉ _matrix fb).
  { intros r Ha Hb. unfold fa, fb, fresh_sketch in Ha, Hb.
    cbn [_matrix] in Ha, Hb. rewrite Hl1 in Hb.
    apply elem_of_seq in Ha, Hb. lia. }
  assert (Hdisj' : ∀ r, r ∈ _matrix fb → r ∉ _matrix fa).
  { intros r Hb Ha. by apply (Hdisj r). }
  assert (Hwfa1 : wf_sketch h1 fa) by apply fresh_sketch_wf.
  assert (Hwfb2 : wf_sketch h2 fb) by apply fresh_sketch_wf.
  assert (Hfr12 : ∀ r, r ∈ _matrix fa → arrays h2 !! r = arrays h1 !! r).
  { intros r Hel. unfold fa, fresh_sketch in Hel. cbn [_matrix] in Hel.
    apply elem_of_seq in Hel.
    unfold h2. cbn [arrays]. apply lookup_app_l. lia. }
  assert (Hwfa2 : wf_sketch h2 fa) by (by apply (wf_frame h1)).
  assert (Ha2 : sketches h2 !! a = Some fa).
  { unfold h2. simpl. apply lookup_app_l_Some. by apply list_lookup_middle. }
  assert (Hb2 : sketches h2 !! b = Some fb)
    by (unfold h2; simpl; by apply list_lookup_middle).
  destruct (updates_effect a A fa h2 Ha2 Hwfa2 Hdw)
    as (h3 & Hrun3 & Hsk3 & _ & Hout3 & Hwfa3 & Hc3).
  assert (Hb3 : sketches h3 !! b = Some fb).
  { rewrite Hsk3. by rewrite list_lookup_insert_ne. }
  assert (Ha3 : sketches h3 !! a = Some (with_N fa (_N fa + total_weight A))).
  { rewrite Hsk3. apply list_lookup_insert_eq. by eapply lookup_lt_Some. }
  assert (Hfr23 : ∀ r, r ∈ _matrix fb → arrays h3 !! r = arrays h2 !! r).
  { intros r Hel. apply Hout3. by apply Hdisj'. }
  assert (Hwfb3 : wf_sketch h3 fb) by (by apply (wf_frame h2)).
  destruct (updates_effect b B fb h3 Hb3 Hwfb3 Hdw)
    as (h4 & Hrun4 & Hsk4 & _ & Hout4 & Hwfb4 & Hc4).
  assert (Ha4 : sketches h4 !! a = Some (with_N fa (_N fa + total_weight A))).
  { rewrite Hsk4. by rewrite list_lookup_insert_ne. }
  assert (Hb4 : sketches h4 !! b = Some (with_N fb (_N fb + total_weight B))).
  { rewrite Hsk4. apply list_lookup_insert_eq. by eapply lookup_lt_Some. }
  assert (Hfr34 : ∀ r, r ∈ _matrix fa → arrays h4 !! r = arrays h3 !! r).
  { intros r Hel. apply Hout4. by apply Hdisj. }
  assert (Hwfa4 : wf_sketch h4 fa) by (by apply (wf_frame h3)).
  destruct (merge_effect a b _ _ h4 Ha4 Hb4
              (wf_with_N _ _ _ Hwfa4) (wf_with_N _ _ _ Hwfb4))
    as (h5 & Hrun5 & Hsk5 & _ & _ & _ & Hsum); try done.
  exists a, b, h5, (with_N fa (_N fa + total_weight A)).
  split; [| split; [| split]].
  - unfold merge_of_streams.
    rewrite (bind_ok _ _ _ _ _ (new_CountMinSketch_effect _ _ _ _)).
    rewrite (bind_ok _ _ _ _ _ (new_CountMinSketch_effect _ _ _ _)).
    simpl default. fold fa. fold R. fold h1. fold fb. fold h2. fold a. fold b.
    rewrite (bind_ok _ _ _ _ _ Hrun3), (bind_ok _ _ _ _ _ Hrun4).
    by rewrite (bind_ok _ _ _ _ _ Hrun5).
  - by rewrite Hsk5.
  - simpl. lia.
  - intros i j Hi Hj.
    assert (Hza : cell h2 fa i j = Num 0).
    { rewrite (cell_frame h1 h2 fa i j Hfr12). by apply fresh_sketch_cell. }
    assert (Hzb : cell h2 fb i j = Num 0) by (by apply fresh_sketch_cell).
    pose proof (Hc3 i j 0 Hza) as Hca.
    rewrite <- (cell_frame h2 h3 fb i j Hfr23) in Hzb.
    pose proof (Hc4 i j 0 Hzb) as Hcb.
    rewrite <- (cell_frame h3 h4 fa i j Hfr34) in Hca.
    rewrite (Hsum i j _ _ Hca Hcb). f_equal. simpl.
    rewrite weight_at_app. lia.
Qed.

(** X13. The clone of a well-formed sketch is another object, it gives the
    same outcome of [count] as the original for every element, and cloning
    changes neither the original nor its estimates. *)
Theorem clone_preserves_count this s h :
  sketches h !! this = Some s →
  wf_sketch h s →
  ∃ copy h',
    clone this h = (Ok copy, h')
    ∧ copy ≠ this
    ∧ sketches h' !! this = Some s
    ∧ ∀ x,
        count getDistinctIndices copy x h' = count getDistinctIndices this x h'
        ∧ (count getDistinctIndices this x h').1
          = (count getDistinctIndices this x h).1.
Proof.
  intros Hs Hwf.
  destruct (clone_effect_rows this s h Hs Hwf)
    as (h' & Hclone & Hsk & Hold & Hrows).
  pose proof (lookup_lt_Some _ _ _ Hs) as Hlt.
  assert (Hs' : sketches h' !! this = Some s).
  { rewrite Hsk. by apply lookup_app_l_Some. }
  assert (Hc' : sketches h' !! length (sketches h)
                = Some (with_seed (fresh_sketch h (_columns s) (_rows s))
                          (_seed s))).
  { rewrite Hsk. by apply list_lookup_middle. }
  assert (Hsame : ∀ k, row_of h' (_matrix s) k = row_of h (_matrix s) k).
  { intros k. unfold row_of. destruct (_matrix s !! k) as [r|] eqn:Hr; [| done].
    simpl. apply Hold.
    destruct (wf_rows _ _ Hwf r) as (a & Ha & _);
      [by eapply list_elem_of_lookup_2 | by eapply lookup_lt_Some]. }
  exists (length (sketches h)), h'. split; [done |]. split; [lia |].
  split; [done |]. intros x. split.
  - apply (count_same_rows_here _ this _ s _ x h' Hs' Hc'); try done.
    intros k. simpl. by rewrite Hrows, Hsame.
  - by apply (count_same_rows _ this this s s x h h' Hs Hs').
Qed.

(** X14. The clone has row arrays of its own: an update of the clone,
    whether it returns or throws, does not change any estimate of the
    original. *)
Theorem update_of_clone_leaves_original this s h :
  sketches h !! this = Some s →
  wf_sketch h s →
  ∃ copy h',
    clone this h = (Ok copy, h')
    ∧ ∀ element c x,
        (count getDistinctIndices this x
           (update getDistinctIndices copy element c h').2).1
        = (count getDistinctIndices this x h).1.
Proof.
  intros Hs Hwf.
  destruct (clone_effect_rows this s h Hs Hwf)
    as (h' & Hclone & Hsk & Hold & Hrows).
  pose proof (lookup_lt_Some _ _ _ Hs) as Hlt.
  set (cp := with_seed (fresh_sketch h (_columns s) (_rows s)) (_seed s)).
  assert (Hc' : sketches h' !! length (sketches h) = Some cp).
  { rewrite Hsk. by apply list_lookup_middle. }
  assert (Hin : ∀ r, r ∈ _matrix s → (r < length (arrays h))%nat).
  { intros r Hel. destruct (wf_rows _ _ Hwf r Hel) as (a & Ha & _).
    by eapply lookup_lt_Some. }
  exists (length (sketches h)), h'. split; [done |]. intros element c x.
  destruct (update_frame (length (sketches h)) cp element c h' Hc')
    as [Hsk3 Hout3].
  set (h3 := (update getDistinctIndices (length (sketches h)) element c h').2)
    in *.
  assert (Hs3 : sketches h3 !! this = Some s).
  { rewrite Hsk3. rewrite list_lookup_insert_ne by lia.
    rewrite Hsk. by apply lookup_app_l_Some. }
  apply (count_same_rows _ this this s s x h h3 Hs Hs3); try done.
  intros k. unfold row_of. destruct (_matrix s !! k) as [r|] eqn:Hr; [| done].
  simpl. assert (Hel : r ∈ _matrix s) by (by eapply list_elem_of_lookup_2).
  rewrite Hout3.
  - by apply Hold, Hin.
  - simpl. intros Hel'. apply elem_of_seq in Hel'. specialize (Hin r Hel). lia.
Qed.

(** X15. [import] takes the row arrays of the payload as they are
    ([slice()] copies the outer array only): two sketches imported from one
    payload object have the same rows, and after an update of the first,
    whether it returns or throws, [count] still has the same outcome on
    both for every element. *)
Theorem imports_of_one_payload_share_rows json h :
  well_formed_payload json →
  ∃ a h1 b h2 sa sb,
    import json h = (Ok a, h1)
    ∧ import json h1 = (Ok b, h2)
    ∧ a ≠ b
    ∧ sketches h2 !! a = Some sa
    ∧ sketches h2 !! b = Some sb
    ∧ JSON._matrix json = Some (_matrix sa)
    ∧ _matrix sa = _matrix sb
    ∧ ∀ element c x,
        count getDistinctIndices a x
          (update getDistinctIndices a element c h2).2
        = count getDistinctIndices b x
            (update getDistinctIndices a element c h2).2.
Proof.
  intros Hwf. destruct json as [ty m sd n r c].
  destruct Hwf as (Hty & [m' ?] & [sd' ?] & [n' ?] & [r' ?] & [c' ?]).
  simpl in *. subst.
  set (S0 := mkCountMinSketch sd' c' r' m' n').
  eexists _, _, _, _, S0, S0.
  split; [apply import_effect |]. split; [apply import_effect |]. simpl.
  assert (Ha : ((sketches h ++ [S0]) ++ [S0]) !! length (sketches h) = Some S0).
  { apply lookup_app_l_Some. by apply list_lookup_middle. }
  assert (Hb : ((sketches h ++ [S0]) ++ [S0]) !! length (sketches h ++ [S0])
               = Some S0) by (by apply list_lookup_middle).
  split; [rewrite length_app; simpl; lia |].
  split; [done |]. split; [done |]. split; [done |]. split; [done |].
  intros element c x.
  set (h2 := mkHeap _ _).
  destruct (update_frame (length (sketches h)) S0 element c h2 Ha) as [Hsk _].
  set (h3 := (update getDistinctIndices (length (sketches h)) element c h2).2)
    in *.
  symmetry.
  apply (count_same_rows_here _ _ _
           (with_N S0 (_N S0 + default 1 c)) S0 x h3); try done.
  - rewrite Hsk. simpl. apply list_lookup_insert_eq.
    rewrite !length_app. simpl. lia.
  - rewrite Hsk. simpl. rewrite list_lookup_insert_ne; [done |].
    rewrite length_app. simpl. lia.
Qed.

End MoreTheory.

(** ** The further properties at concrete inputs *)

Lemma fresh_sketch_counts_zero_witness :
  ∃ this h',
    new_CountMinSketch (Some 4%nat) (Some 2%nat) None empty_heap = (Ok this, h')
    ∧ count sample_indices this "daniel" h' = (Ok (Num 0), h').
Proof.
  apply (fresh_sketch_counts_zero sample_indices sample_indices_spec
           4%nat 2%nat None "daniel" empty_heap).
  lia.
Defined.

Lemma count_is_minimum_over_rows_witness :
  ∃ indexes z,
    sample_indices "alice" 2 1 getDefaultSeed = Some indexes
    ∧ count sample_indices 1%nat "alice" heap_three = (Ok (Num z), heap_three)
    ∧ (∃ i hi, (i < 1)%nat ∧ indexes !! i = Some hi
               ∧ cell heap_three sketch_d i hi = Num z)
    ∧ (∀ i hi zi, (i < 1)%nat → indexes !! i = Some hi →
         cell heap_three sketch_d i hi = Num zi → z ≤ zi).
Proof.
  apply (count_is_minimum_over_rows sample_indices sample_indices_spec
           1%nat sketch_d "alice" heap_three).
  - reflexivity.
  - apply wf_sketchb_true. reflexivity.
  - simpl. lia.
Defined.

Lemma updates_add_weights_cellwise_witness :
  ∃ h',
    updates sample_indices 0%nat alice_bob heap_4x2 = (Ok tt, h')
    ∧ sketches h' !! 0%nat = Some (with_N sketch_4x2 3)
    ∧ (∀ i j, (i < 2)%nat → (j < 4)%nat →
         ∃ z, cell heap_4x2 sketch_4x2 i j = Num z
           ∧ cell h' sketch_4x2 i j
             = Num (z + weight_at sample_indices 4 2 getDefaultSeed i j
                          alice_bob)).
Proof.
  apply (updates_add_weights_cellwise sample_indices sample_indices_spec
           0%nat sketch_4x2 alice_bob heap_4x2).
  - reflexivity.
  - apply wf_sketchb_true. reflexivity.
  - simpl. lia.
Defined.

Lemma updates_keep_row_totals_witness :
  ∃ h' s',
    updates sample_indices 0%nat alice_bob heap_4x2 = (Ok tt, h')
    ∧ sketches h' !! 0%nat = Some s'
    ∧ _N s' = 0 + total_weight alice_bob
    ∧ rows_sum_to h' s' (_N s').
Proof.
  apply (updates_keep_row_totals sample_indices sample_indices_spec
           0%nat alice_bob sketch_4x2 heap_4x2).
  - reflexivity.
  - apply wf_sketchb_true. reflexivity.
  - simpl. lia.
  - apply rows_sum_tob_true. reflexivity.
Defined.

Lemma count_at_most_N_witness :
  ∃ z, count sample_indices 1%nat "alice" heap_three = (Ok (Num z), heap_three)
       ∧ 0 ≤ z ≤ 6.
Proof.
  apply (count_at_most_N sample_indices sample_indices_spec
           1%nat sketch_d "alice" heap_three).
  - reflexivity.
  - apply wf_sketchb_true. reflexivity.
  - apply nonneg_cellsb_true. reflexivity.
  - apply rows_sum_tob_true. reflexivity.
  - simpl. lia.
Defined.

Lemma updates_order_irrelevant_witness :
  ∃ h',
    updates sample_indices 0%nat alice_bob heap_4x2 = (Ok tt, h')
    ∧ updates sample_indices 0%nat bob_alice heap_4x2 = (Ok tt, h').
Proof.
  apply (updates_order_irrelevant sample_indices sample_indices_spec
           0%nat sketch_4x2 alice_bob bob_alice heap_4x2).
  - reflexivity.
  - apply wf_sketchb_true. reflexivity.
  - simpl. lia.
  - apply perm_swap.
Defined.

Lemma update_undone_by_opposite_weight_witness :
  ∃ h1,
    update sample_indices 0%nat "alice" (Some 5) heap_4x2 = (Ok tt, h1)
    ∧ update sample_indices 0%nat "alice" (Some (- 5)) h1 = (Ok tt, heap_4x2).
Proof.
  apply (update_undone_by_opposite_weight sample_indices sample_indices_spec
           0%nat sketch_4x2 "alice" 5 heap_4x2).
  - reflexivity.
  - apply wf_sketchb_true. reflexivity.
  - simpl. lia.
Defined.

Lemma update_failure_keeps_N_increment_witness :
  update sample_indices 0%nat "a" None heap_1x2
  = (Throw ParameterError,
     mkHeap [with_N sketch_1x2 1] [[Num 0]; [Num 0]]).
Proof.
  apply (update_failure_keeps_N_increment sample_indices
           0%nat sketch_1x2 "a" None heap_1x2).
  - reflexivity.
  - reflexivity.
Defined.

Lemma update_leaves_other_sketches_witness :
  sketches (update sample_indices 0%nat "alice" None heap_three).2 !! 1%nat
  = Some sketch_d
  ∧ ∀ x,
      (count sample_indices 1%nat x
         (update sample_indices 0%nat "alice" None heap_three).2).1
      = (count sample_indices 1%nat x heap_three).1.
Proof.
  apply (update_leaves_other_sketches sample_indices 0%nat 1%nat
           sketch_c sketch_d "alice" None heap_three).
  - lia.
  - reflexivity.
  - reflexivity.
  - unfold separate. simpl. repeat constructor.
    intros H. apply list_elem_of_singleton in H. discriminate.
Defined.

Lemma merge_count_superadditive_witness :
  ∃ za zb h' z,
    count sample_indices 0%nat "alice" heap_three = (Ok (Num za), heap_three)
    ∧ count sample_indices 1%nat "alice" heap_three = (Ok (Num zb), heap_three)
    ∧ merge 0%nat 1%nat heap_three = (Ok tt, h')
    ∧ count sample_indices 0%nat "alice" h' = (Ok (Num z), h')
    ∧ za + zb ≤ z.
Proof.
  apply (merge_count_superadditive sample_indices sample_indices_spec
           0%nat 1%nat sketch_c sketch_d "alice" heap_three).
  - reflexivity.
  - reflexivity.
  - apply wf_sketchb_true. reflexivity.
  - apply wf_sketchb_true. reflexivity.
  - unfold separate. simpl. repeat constructor.
    intros H. apply list_elem_of_singleton in H. discriminate.
  - reflexivity.
  - reflexivity.
  - reflexivity.
  - simpl. lia.
Defined.

Lemma merge_of_streams_is_sketch_of_concatenation_witness :
  ∃ a b h' sa,
    merge_of_streams sample_indices 4 2 alice_bob [("bob", 2)] empty_heap
    = (Ok (a, b), h')
    ∧ sketches h' !! a = Some sa
    ∧ _N sa = total_weight alice_bob
    ∧ ∀ i j, (i < 2)%nat → (j < 4)%nat →
        cell h' sa i j
        = Num (weight_at sample_indices 4 2 getDefaultSeed i j
                 (alice_bob ++ [("bob", 2)])).
Proof.
  apply (merge_of_streams_is_sketch_of_concatenation sample_indices
           sample_indices_spec 4%nat 2%nat alice_bob [("bob", 2)] empty_heap).
  lia.
Defined.

Lemma clone_preserves_count_witness :
  ∃ copy h',
    clone 0%nat heap_1x1_N3 = (Ok copy, h')
    ∧ copy ≠ 0%nat
    ∧ sketches h' !! 0%nat = Some sketch_1x1_N3
    ∧ ∀ x,
        count sample_indices copy x h' = count sample_indices 0%nat x h'
        ∧ (count sample_indices 0%nat x h').1
          = (count sample_indices 0%nat x heap_1x1_N3).1.
Proof.
  apply (clone_preserves_count sample_indices 0%nat sketch_1x1_N3 heap_1x1_N3).
  - reflexivity.
  - apply wf_sketchb_true. reflexivity.
Defined.

Lemma update_of_clone_leaves_original_witness :
  ∃ copy h',
    clone 0%nat heap_1x1_N3 = (Ok copy, h')
    ∧ ∀ element c x,
        (count sample_indices 0%nat x
           (update sample_indices copy element c h').2).1
        = (count sample_indices 0%nat x heap_1x1_N3).1.
Proof.
  apply (update_of_clone_leaves_original sample_indices 0%nat sketch_1x1_N3
           heap_1x1_N3).
  - reflexivity.
  - apply wf_sketchb_true. reflexivity.
Defined.

Lemma imports_of_one_payload_share_rows_witness :
  ∃ a h1 b h2 sa sb,
    import payload_1x1 heap_1x1_N3 = (Ok a, h1)
    ∧ import payload_1x1 h1 = (Ok b, h2)
    ∧ a ≠ b
    ∧ sketches h2 !! a = Some sa
    ∧ sketches h2 !! b = Some sb
    ∧ JSON._matrix payload_1x1 = Some (_matrix sa)
    ∧ _matrix sa = _matrix sb
    ∧ ∀ element c x,
        count sample_indices a x (update sample_indices a element c h2).2
        = count sample_indices b x (update sample_indices a element c h2).2.
Proof.
  apply (imports_of_one_payload_share_rows sample_indices payload_1x1
           heap_1x1_N3).
  unfold well_formed_payload. simpl. repeat split; eauto.
Defined.
